(** * word-cloud-mcp: the frequency-to-layout-to-render pipeline

    A shallow embedding of [src/wordcloud/generator.ts] (class
    [WordCloudGenerator]) and of the two sibling generators
    ([AdvancedWordCloudGenerator], [MultiFormatWordCloudGenerator]) where
    they differ, together with the properties stated about them.

    Number model.  A JavaScript [number] is modelled as an exact rational
    ([Q]); [===] on numbers is [Qeq_bool], [<] is [Qltb].  Rounding error,
    [NaN] and the infinities are outside the model.  The transcendental
    functions of [Math] and the other host services are not computed here:
    the development is parametric in a [Runtime] that supplies them.

    String model.  A JavaScript string is the list of its UTF-16 code
    units. *)

From Stdlib Require Import QArith Qminmax Qround Qabs Lqa Lia ZArith NArith.
From Stdlib Require Import List Bool String Ascii Sorted Permutation.
Import ListNotations.

Set Implicit Arguments.
Open Scope Q_scope.

(* ================================================================== *)
(** ** Numbers *)

Definition Qltb (a b : Q) : bool := negb (Qle_bool b a).

Infix "<?" := Qltb (at level 70, no associativity) : Q_scope.
Infix "<=?" := Qle_bool (at level 70, no associativity) : Q_scope.
Infix "=?" := Qeq_bool (at level 70, no associativity) : Q_scope.

(** [Math.floor] and [Math.round] (round half up: [floor (v + 0.5)]). *)
Definition Math_floor (v : Q) : Z := Qfloor v.
Definition Math_round (v : Q) : Z := Qfloor (v + 0.5).

(** [Math.max(...xs)] and [Math.min(...xs)] over a non-empty spread of
    integers (the empty spread gives an infinity and is not modelled). *)
Definition Math_max_list (d : Z) (xs : list Z) : Z := fold_left Z.max xs d.
Definition Math_min_list (d : Z) (xs : list Z) : Z := fold_left Z.min xs d.

(* ================================================================== *)
(** ** Strings *)

Definition jsstring := list N.

(** An ASCII literal as a JavaScript string. *)
Definition lit (s : string) : jsstring := map N_of_ascii (list_ascii_of_string s).

Definition str_eqb (a b : jsstring) : bool :=
  if list_eq_dec N.eq_dec a b then true else false.

(** The class [\s] of ECMAScript regular expressions, which is also the
    set of characters that [String.prototype.trim] strips. *)
Definition isWhiteSpace (c : N) : bool :=
  ((9 <=? c) && (c <=? 13) || (c =? 32) || (c =? 160) || (c =? 5760)
   || (8192 <=? c) && (c <=? 8202) || (c =? 8232) || (c =? 8233)
   || (c =? 8239) || (c =? 8287) || (c =? 12288) || (c =? 65279))%N.

Fixpoint dropWhile (A : Type) (p : A -> bool) (l : list A) : list A :=
  match l with
  | [] => []
  | c :: t => if p c then dropWhile p t else l
  end.

(** [s.trim()] *)
Definition trim (s : jsstring) : jsstring :=
  rev (dropWhile isWhiteSpace (rev (dropWhile isWhiteSpace s))).

(** [s.split(/\s+/)]: [cur] is the piece being read (reversed) and
    [inRun] tells whether the previous unit belonged to a separator. *)
Fixpoint splitLoop (s cur : jsstring) (inRun : bool) : list jsstring :=
  match s with
  | [] => [rev cur]
  | c :: t =>
      if isWhiteSpace c
      then if inRun then splitLoop t [] true
           else rev cur :: splitLoop t [] true
      else splitLoop t (c :: cur) false
  end.

Definition split_ws (s : jsstring) : list jsstring := splitLoop s [] false.

(* ================================================================== *)
(** ** [Array.prototype.sort]

    The sort of ECMAScript 2019 is stable.  It is modelled as a stable
    insertion sort driven by the comparator, whose sign decides as in
    JavaScript: [cmp a b > 0] puts [b] before [a]. *)

Section Sort.
Variable A : Type.
Variable cmp : A -> A -> Q.

Fixpoint insertSorted (a : A) (l : list A) : list A :=
  match l with
  | [] => [a]
  | b :: t => if 0 <? cmp a b then b :: insertSorted a t else a :: l
  end.

Fixpoint jsSort (l : list A) : list A :=
  match l with
  | [] => []
  | a :: t => insertSorted a (jsSort t)
  end.
End Sort.

(* ================================================================== *)
(** ** Frequency Analyzer ([analyzeWordFrequency]) *)

Record WordFreq : Type := mkWordFreq { wf_word : jsstring; wf_frequency : Z }.

(** A [Map<string, number>]: the entries in insertion order. *)
Definition FreqMap := list (jsstring * Z).

Fixpoint mapGet (m : FreqMap) (k : jsstring) : option Z :=
  match m with
  | [] => None
  | (k', v) :: t => if str_eqb k' k then Some v else mapGet t k
  end.

(** [m.set(k, v)]: an existing key keeps its place, a new one goes last. *)
Fixpoint mapSet (m : FreqMap) (k : jsstring) (v : Z) : FreqMap :=
  match m with
  | [] => [(k, v)]
  | (k', v') :: t => if str_eqb k' k then (k', v) :: t else (k', v') :: mapSet t k v
  end.

(** [(m.get(k) || 0)] *)
Definition getOrZero (m : FreqMap) (k : jsstring) : Z :=
  match mapGet m k with Some v => v | None => 0%Z end.

(** The body of [words.forEach(word => ...)]. *)
Definition countWord (m : FreqMap) (w : jsstring) : FreqMap :=
  let cleanWord := trim w in
  if (0 <? List.length cleanWord)%nat
  then mapSet m cleanWord (getOrZero m cleanWord + 1)%Z
  else m.

Definition nonEmpty (w : jsstring) : bool := (0 <? List.length w)%nat.

(** [text.split(/\s+/).filter(word => word.length > 0)] *)
Definition tokens (text : jsstring) : list jsstring :=
  filter nonEmpty (split_ws text).

Definition byFrequencyDesc (a b : WordFreq) : Q :=
  inject_Z (wf_frequency b) - inject_Z (wf_frequency a).

(** The ranking of a token list with cap [cap]. *)
Definition rankTokens (cap : nat) (words : list jsstring) : list WordFreq :=
  firstn cap
    (jsSort byFrequencyDesc
       (map (fun e => mkWordFreq (fst e) (snd e)) (fold_left countWord words []))).

Definition analyzeWordFrequencyCap (cap : nat) (text : jsstring) : list WordFreq :=
  if ((List.length text =? 0) || (List.length (trim text) =? 0))%nat
  then []
  else rankTokens cap (tokens text).

Definition analyzeWordFrequency : jsstring -> list WordFreq :=
  analyzeWordFrequencyCap 120.


(* ================================================================== *)
(** ** Host services

    [Math.PI], [Math.cos], [Math.sin], [Math.pow] and [Math.log] are
    implementation-approximated in ECMAScript; [Math_random n] is the value
    returned by the [n]-th call of [Math.random()]; [numberToString] is the
    conversion applied by a template literal; [path_extname] is node's
    [path.extname]; [saveFile content outputPath] stands for the private
    method [saveFile], which only talks to the file system: it answers with
    the path written or with the message of the error it throws. *)

Class Runtime : Type := {
  Math_PI : Q;
  Math_cos : Q -> Q;
  Math_sin : Q -> Q;
  Math_pow : Q -> Q -> Q;
  Math_log : Q -> Q;
  Math_random : nat -> Q;
  numberToString : Q -> jsstring;
  path_extname : jsstring -> jsstring;
  saveFile : jsstring -> jsstring -> jsstring + jsstring
}.

(** Errors.  [GenerationFailed e] is the error re-thrown by the [catch] of
    [generate], whose message is the prefix followed by the message of [e]. *)
Inductive Error : Type :=
| NoValidWords
| SaveFileFailed (message : jsstring)
| GenerationFailed (cause : Error).

(** The outcome of a run: a value, a thrown error, a run that needs more
    than the given number of loop iterations, or a run that leaves the
    number model (an [undefined] reached arithmetic). *)
Inductive result (A : Type) : Type :=
| Ok (a : A)
| Throw (e : Error)
| OutOfFuel
| OffModel.

Arguments Ok {A} a.
Arguments Throw {A} e.
Arguments OutOfFuel {A}.
Arguments OffModel {A}.

Definition bind (A B : Type) (m : result A) (k : A -> result B) : result B :=
  match m with
  | Ok a => k a
  | Throw e => Throw e
  | OutOfFuel => OutOfFuel
  | OffModel => OffModel
  end.

Notation "x <- m ;; k" := (bind m (fun x => k))
  (at level 61, m at next level, right associativity).

(* ================================================================== *)
(** ** Data model *)

Module Range.
Record t : Type := mk { min : Q; max : Q }.
End Range.

(** [Required<WordCloudOptions>] *)
Module Options.
Record t : Type := mk {
  theme : jsstring;
  shape : jsstring;
  wordGap : Q;
  fontSize : Range.t;
  angleRange : Range.t;
  angleStep : Q;
  outputPath : jsstring;
  width : Q;
  height : Q
}.
End Options.

(** [WordCloudOptions]: every key may be absent. *)
Module Partial.
Record t : Type := mk {
  theme : option jsstring;
  shape : option jsstring;
  wordGap : option Q;
  fontSize : option Range.t;
  angleRange : option Range.t;
  angleStep : option Q;
  outputPath : option jsstring;
  width : option Q;
  height : option Q
}.
Definition empty : t := mk None None None None None None None None None.
End Partial.

(** An occupied area [{ x, y, width, height }]. *)
Module Rect.
Record t : Type := mk { x : Q; y : Q; width : Q; height : Q }.
End Rect.

(** [{ width, height }] as returned by the estimator. *)
Module Size.
Record t : Type := mk { width : Q; height : Q }.
End Size.

(** [color] is [None] when the palette lookup yields [undefined]. *)
Record WordItem : Type := mkWordItem {
  text : jsstring;
  frequency : Z;
  fontSize : Q;
  color : option jsstring;
  angle : Q;
  x : Q;
  y : Q;
  width : Q;
  height : Q
}.

Definition setPosition (word : WordItem) (x' y' : Q) : WordItem :=
  mkWordItem (text word) (frequency word) (fontSize word) (color word)
             (angle word) x' y' (width word) (height word).

Definition defaultOptions : Options.t :=
  Options.mk (lit "default") (lit "rectangle") 3 (Range.mk 16 66)
             (Range.mk (-45) 45) 15 (lit "./wordcloud.svg") 800 600.

Definition orElse (A : Type) (o : option A) (d : A) : A :=
  match o with Some a => a | None => d end.

(** [{ ...this.defaultOptions, ...options }] *)
Definition mergeOptions (d : Options.t) (o : Partial.t) : Options.t :=
  Options.mk
    (orElse (Partial.theme o) (Options.theme d))
    (orElse (Partial.shape o) (Options.shape d))
    (orElse (Partial.wordGap o) (Options.wordGap d))
    (orElse (Partial.fontSize o) (Options.fontSize d))
    (orElse (Partial.angleRange o) (Options.angleRange d))
    (orElse (Partial.angleStep o) (Options.angleStep d))
    (orElse (Partial.outputPath o) (Options.outputPath d))
    (orElse (Partial.width o) (Options.width d))
    (orElse (Partial.height o) (Options.height d)).

(** The palettes of [colorThemes]. *)
Definition theme_default : list jsstring := map lit
  ["#FF4444"; "#2196F3"; "#4CAF50"; "#FF9800"; "#9C27B0";
   "#00BCD4"; "#795548"; "#607D8B"; "#E91E63"; "#3F51B5";
   "#009688"; "#FFC107"; "#673AB7"; "#FF5722"; "#8BC34A";
   "#CDDC39"; "#FF6B6B"; "#4ECDC4"; "#45B7D1"; "#96CEB4"]%string.

Definition theme_colorful : list jsstring := map lit
  ["#FF1744"; "#2979FF"; "#00E676"; "#FF6D00"; "#D500F9";
   "#00E5FF"; "#6D4C41"; "#455A64"; "#C51162"; "#3D5AFE";
   "#1DE9B6"; "#FFD600"; "#651FFF"; "#FF3D00"; "#76FF03";
   "#C6FF00"; "#FF4081"; "#40C4FF"; "#69F0AE"; "#B2FF59"]%string.

Definition theme_warm : list jsstring := map lit
  ["#FF6B6B"; "#FF8E53"; "#FF6B9D"; "#C44569"; "#F8B500";
   "#FF7675"; "#FD79A8"; "#E17055"; "#FDCB6E"; "#E84393"]%string.

Definition theme_cool : list jsstring := map lit
  ["#0984e3"; "#74b9ff"; "#00b894"; "#00cec9"; "#6c5ce7";
   "#a29bfe"; "#fd79a8"; "#55a3ff"; "#26de81"; "#45aaf2"]%string.

Definition theme_nature : list jsstring := map lit
  ["#00b894"; "#00cec9"; "#55a3ff"; "#fdcb6e"; "#6c5ce7";
   "#fd79a8"; "#e17055"; "#81ecec"; "#74b9ff"; "#a29bfe"]%string.

Definition theme_business : list jsstring := map lit
  ["#2d3436"; "#636e72"; "#74b9ff"; "#0984e3"; "#00b894";
   "#fdcb6e"; "#e17055"; "#6c5ce7"; "#fd79a8"; "#55a3ff"]%string.

Definition colorThemes : list (jsstring * list jsstring) :=
  [(lit "default", theme_default); (lit "colorful", theme_colorful);
   (lit "warm", theme_warm); (lit "cool", theme_cool);
   (lit "nature", theme_nature); (lit "business", theme_business)].

Fixpoint lookupTheme (table : list (jsstring * list jsstring)) (name : jsstring)
  : option (list jsstring) :=
  match table with
  | [] => None
  | (k, v) :: t => if str_eqb k name then Some v else lookupTheme t name
  end.

(** [this.colorThemes[theme] || this.colorThemes.default], for a theme
    name that is an own key of the table or no key at all. *)
Definition getThemeColors (theme : jsstring) : list jsstring :=
  orElse (lookupTheme colorThemes theme) theme_default.

(* ================================================================== *)
(** ** Glyph Box Preparer *)

Definition Qgtb (a b : Q) : bool := b <? a.
Infix ">?" := Qgtb (at level 70, no associativity) : Q_scope.

Definition ofNat (n : nat) : Q := inject_Z (Z.of_nat n).

(** [l[i]] for a number [i] that holds an integer. *)
Definition jsNth (A : Type) (l : list A) (i : Z) : option A :=
  if (i <? 0)%Z then None else nth_error l (Z.to_nat i).

(** The iteration [for (const char of text)]: a high surrogate followed
    by a low surrogate is one character, any other unit is one alone. *)
Definition isHighSurrogate (c : N) : bool := ((55296 <=? c) && (c <=? 56319))%N.
Definition isLowSurrogate (c : N) : bool := ((56320 <=? c) && (c <=? 57343))%N.

Fixpoint chars (s : jsstring) : list jsstring :=
  match s with
  | [] => []
  | c :: t =>
      match t with
      | d :: t' =>
          if isHighSurrogate c && isLowSurrogate d
          then [c; d] :: chars t'
          else [c] :: chars t
      | [] => [[c]]
      end
  end.

(** [/[\u4e00-\u9fff]/.test(char)]: some unit of [char] is in the range. *)
Definition isCJK (char : jsstring) : bool :=
  existsb (fun c => (19968 <=? c) && (c <=? 40959))%N char.

Section Preparer.
Context {rt : Runtime}.

Definition calculateFontSize (frequency minFreq maxFreq : Q)
           (fontSizeRange : Range.t) : Q :=
  if maxFreq =? minFreq
  then (Range.min fontSizeRange + Range.max fontSizeRange) / 2
  else
    let normalizedFreq := (frequency - minFreq) / (maxFreq - minFreq) in
    let scaledFreq := Math_pow normalizedFreq 0.5 in
    let sizeRange := Range.max fontSizeRange - Range.min fontSizeRange in
    let calculatedSize := Range.min fontSizeRange + scaledFreq * sizeRange in
    let maxAllowedSize := Range.min fontSizeRange + sizeRange * 0.8 in
    Qmin calculatedSize maxAllowedSize.

Definition selectColorInternal (colors : list jsstring) (index : nat)
           (frequency maxFreq : Q) : option jsstring :=
  let frequencyRatio := frequency / maxFreq in
  if frequencyRatio >? 0.8
  then nth_error colors (index mod Nat.min 5 (List.length colors))
  else if frequencyRatio >? 0.5
  then nth_error colors (index mod Nat.min 10 (List.length colors))
  else nth_error colors (index mod List.length colors).

(** The loop of [generateAngles]; [fuel] bounds its iterations. *)
Fixpoint generateAnglesLoop (fuel : nat) (angleMax angleStep angle : Q)
         (angles : list Q) : result (list Q) :=
  match fuel with
  | O => OutOfFuel
  | S fuel' =>
      if angle <=? angleMax
      then generateAnglesLoop fuel' angleMax angleStep (angle + angleStep)
                              (angles ++ [angle])
      else Ok angles
  end.

Definition generateAngles (fuel : nat) (angleRange : Range.t) (angleStep : Q)
  : result (list Q) :=
  angles <- generateAnglesLoop fuel (Range.max angleRange) angleStep
                               (Range.min angleRange) [] ;;
  Ok (if (0 <? List.length angles)%nat then angles else [0]).

(** [calls] counts the calls of [Math.random()] made so far; the angle
    is [None] when the array lookup yields [undefined]. *)
Definition calculateAngle (fuel calls index : nat) (angleRange : Range.t)
           (angleStep : Q) : result (option Q * nat) :=
  angles <- generateAngles fuel angleRange angleStep ;;
  if (index <? 5)%nat then Ok (Some 0, calls)
  else if (index <? 15)%nat then
    let smallAngles := filter (fun angle => Qabs angle <=? 30) angles in
    let i := Math_floor (Math_random calls * ofNat (List.length smallAngles)) in
    Ok (Some (orElse (jsNth smallAngles i) 0), S calls)
  else
    let i := Math_floor (Math_random calls * ofNat (List.length angles)) in
    Ok (jsNth angles i, S calls).

Definition baseWidthOf (text : jsstring) (fontSize : Q) : Q :=
  fold_left (fun baseWidth char =>
               if isCJK char then baseWidth + fontSize
               else baseWidth + fontSize * 0.6)
            (chars text) 0.

Definition estimateTextDimensions (text : jsstring) (fontSize angle : Q) : Size.t :=
  let baseWidth := baseWidthOf text fontSize in
  let baseHeight := fontSize * 1.2 in
  if angle =? 0 then Size.mk baseWidth baseHeight
  else
    let radians := (Qabs angle * Math_PI) / 180 in
    let rotatedWidth := Qabs (baseWidth * Math_cos radians)
                        + Qabs (baseHeight * Math_sin radians) in
    let rotatedHeight := Qabs (baseWidth * Math_sin radians)
                         + Qabs (baseHeight * Math_cos radians) in
    Size.mk rotatedWidth rotatedHeight.

(** The callback of [wordFrequencies.map((item, index) => ...)], run
    from [index] on; the three generators differ in how they size,
    colour and turn a word, which [sizeOf], [colorOf] and [angleOf] say. *)
Section Items.
Variable sizeOf : Q -> Q.
Variable colorOf : nat -> Z -> option jsstring.
Variable angleOf : nat -> nat -> Z -> result (option Q * nat).

Fixpoint prepareLoop (calls index : nat) (items : list WordFreq)
  : result (list WordItem) :=
  match items with
  | [] => Ok []
  | item :: rest =>
      let fontSize := sizeOf (inject_Z (wf_frequency item)) in
      let color := colorOf index (wf_frequency item) in
      r <- angleOf calls index (wf_frequency item) ;;
      match fst r with
      | None => OffModel
      | Some angle =>
          let dimensions := estimateTextDimensions (wf_word item) fontSize angle in
          tail <- prepareLoop (snd r) (S index) rest ;;
          Ok (mkWordItem (wf_word item) (wf_frequency item)
                         (inject_Z (Math_round fontSize)) color angle 0 0
                         (Size.width dimensions) (Size.height dimensions)
                :: tail)
      end
  end.
End Items.

Definition frequencies (l : list WordFreq) : list Z := map wf_frequency l.

Definition prepareWordItems (fuel : nat) (wordFrequencies : list WordFreq)
           (config : Options.t) : result (list WordItem) :=
  match frequencies wordFrequencies with
  | [] => Ok []
  | f :: fs =>
      let maxFreq := Math_max_list f fs in
      let minFreq := Math_min_list f fs in
      let colors := getThemeColors (Options.theme config) in
      prepareLoop
        (fun frequency =>
           calculateFontSize frequency (inject_Z minFreq) (inject_Z maxFreq)
                             (Options.fontSize config))
        (fun index frequency =>
           selectColorInternal colors index (inject_Z frequency) (inject_Z maxFreq))
        (fun calls index _ =>
           calculateAngle fuel calls index (Options.angleRange config)
                          (Options.angleStep config))
        0 0 wordFrequencies
  end.
End Preparer.

(* ================================================================== *)
(** ** Spatial Packer *)

Definition isOverlapping (area1 area2 : Rect.t) : bool :=
  negb ((Rect.x area1 + Rect.width area1 <? Rect.x area2)
        || (Rect.x area2 + Rect.width area2 <? Rect.x area1)
        || (Rect.y area1 + Rect.height area1 <? Rect.y area2)
        || (Rect.y area2 + Rect.height area2 <? Rect.y area1)).

(** The box of a word at [(x0, y0)], padded by [gap] on every side. *)
Definition paddedArea (word : WordItem) (x0 y0 gap : Q) : Rect.t :=
  Rect.mk (x0 - gap) (y0 - gap) (width word + gap * 2) (height word + gap * 2).

Section Packer.
Context {rt : Runtime}.

Section Spiral.
Variable word : WordItem.
Variables centerX centerY : Q.
Variable occupiedAreas : list Rect.t.
Variable config : Options.t.

Definition maxRadius : Q :=
  Qmin (Options.width config) (Options.height config) / 2
  - Qmax (width word) (height word).
Definition radiusStep : Q := Qmax 2 (fontSize word / 8).
Definition startRadius : Q := Qmax (fontSize word / 2) 20.

Definition searchGap : Q := Qmax (Options.wordGap config) (fontSize word / 12).

(** One turn of the inner loop: [None] is [continue] or an overlap,
    [Some (x, y)] is the position at which the search returns [true]. *)
Definition tryPosition (radius : Q) (numAngles i : nat) : option (Q * Q) :=
  let angle := (ofNat i * 2 * Math_PI) / ofNat numAngles in
  let ellipseRatioX := 1 + Math_sin angle * 0.1 in
  let ellipseRatioY := 1 + Math_cos angle * 0.1 in
  let x0 := centerX + radius * Math_cos angle * ellipseRatioX - width word / 2 in
  let y0 := centerY + radius * Math_sin angle * ellipseRatioY - height word / 2 in
  let margin := 10 in
  if (x0 <? margin) || (y0 <? margin)
     || (x0 + width word >? Options.width config - margin)
     || (y0 + height word >? Options.height config - margin)
  then None
  else
    let wordArea := paddedArea word x0 y0 searchGap in
    let hasOverlap := existsb (fun area => isOverlapping wordArea area) occupiedAreas in
    if negb hasOverlap then Some (x0, y0) else None.

(** [for (let i = ...; i < numAngles; i++)] with [todo] turns left. *)
Fixpoint angleLoop (radius : Q) (numAngles todo i : nat) : option (Q * Q) :=
  match todo with
  | O => None
  | S todo' =>
      match tryPosition radius numAngles i with
      | Some p => Some p
      | None => angleLoop radius numAngles todo' (S i)
      end
  end.

Definition numAnglesAt (radius : Q) : nat :=
  Z.to_nat (Z.max 8 (Math_floor (radius / 8))).

(** [for (let radius = ...; radius < maxRadius; radius += radiusStep)];
    the outer [None] means that [fuel] iterations were not enough. *)
Fixpoint radiusLoop (fuel : nat) (radius : Q) : option (option (Q * Q)) :=
  match fuel with
  | O => None
  | S fuel' =>
      if radius <? maxRadius
      then match angleLoop radius (numAnglesAt radius) (numAnglesAt radius) 0 with
           | Some p => Some (Some p)
           | None => radiusLoop fuel' (radius + radiusStep)
           end
      else Some None
  end.

(** The step is at least 2, so this many iterations always suffice
    (lemma [radiusLoop_enough]). *)
Definition spiralFuel : nat :=
  S (Z.to_nat (Qceiling ((maxRadius - startRadius) / radiusStep))).

Definition findPositionOrderedSpiral : option (Q * Q) :=
  match radiusLoop spiralFuel startRadius with
  | Some found => found
  | None => None
  end.
End Spiral.

Definition recordGap (config : Options.t) (word : WordItem) : Q :=
  Qmax (Options.wordGap config) (fontSize word / 10).

(** The area pushed on [occupiedAreas] for a placed word. *)
Definition recordedArea (config : Options.t) (word : WordItem) : Rect.t :=
  paddedArea word (x word) (y word) (recordGap config word).

Definition clampX (config : Options.t) (word : WordItem) (x0 : Q) : Q :=
  Qmax (Options.wordGap config)
       (Qmin (Options.width config - width word - Options.wordGap config) x0).

Definition clampY (config : Options.t) (word : WordItem) (y0 : Q) : Q :=
  Qmax (Options.wordGap config)
       (Qmin (Options.height config - height word - Options.wordGap config) y0).

(** The body of the loop of [smartLayoutWords], from index [i] on. *)
Fixpoint layoutLoop (config : Options.t) (centerX centerY : Q) (i : nat)
         (sortedWords : list WordItem) (occupiedAreas : list Rect.t)
         (layoutedWords : list WordItem) : list WordItem :=
  match sortedWords with
  | [] => layoutedWords
  | word :: rest =>
      let placed :=
        if (i =? 0)%nat
        then Some (centerX - width word / 2, centerY - height word / 2)
        else findPositionOrderedSpiral word centerX centerY occupiedAreas config in
      match placed with
      | Some (x0, y0) =>
          let word' := setPosition word (clampX config word x0) (clampY config word y0) in
          layoutLoop config centerX centerY (S i) rest
                     (occupiedAreas ++ [recordedArea config word'])
                     (layoutedWords ++ [word'])
      | None =>
          layoutLoop config centerX centerY (S i) rest occupiedAreas layoutedWords
      end
  end.

Definition byFontSizeDesc (a b : WordItem) : Q := fontSize b - fontSize a.

Definition smartLayoutWords (wordItems : list WordItem) (config : Options.t)
  : list WordItem :=
  let centerX := Options.width config / 2 in
  let centerY := Options.height config / 2 in
  let sortedWords := jsSort byFontSizeDesc wordItems in
  layoutLoop config centerX centerY 0 sortedWords [] [].
End Packer.

(* ================================================================== *)
(** ** Renderer (SVG) *)

(** [s.replace(/c/g, replacement)] for a one-character pattern. *)
Definition replaceAll (c : N) (replacement : jsstring) (s : jsstring) : jsstring :=
  flat_map (fun u => if (u =? c)%N then replacement else [u]) s.

Definition escapeXml (text : jsstring) : jsstring :=
  replaceAll 39 (lit "&#39;")
    (replaceAll 34 (lit "&quot;")
       (replaceAll 62 (lit "&gt;")
          (replaceAll 60 (lit "&lt;")
             (replaceAll 38 (lit "&amp;") text)))).

(** A template chunk: the text of [s] with every [~] standing for a
    double quote. *)
Definition tpl (s : string) : jsstring :=
  map (fun c => if (c =? 126)%N then 34%N else c) (lit s).

Definition nl : jsstring := [10%N].

Fixpoint join (sep : jsstring) (l : list jsstring) : jsstring :=
  match l with
  | [] => []
  | [a] => a
  | a :: t => a ++ sep ++ join sep t
  end.

Definition colorToString (c : option jsstring) : jsstring :=
  orElse c (lit "undefined").

Section Renderer.
Context {rt : Runtime}.

(** The opening tag of a text element, up to and including the line
    break and the indentation that precede the escaped text. *)
Definition textElementOpen (word : WordItem) : jsstring :=
  let cx := numberToString (x word + width word / 2) in
  let cy := numberToString (y word + height word / 2) in
  let fontWeight := if (frequency word >? 3)%Z then lit "bold" else lit "normal" in
  tpl "<text x=~" ++ cx ++ tpl "~ y=~" ++ cy ++ tpl "~ " ++ nl
  ++ tpl "                    font-family=~'Microsoft YaHei', 'PingFang SC', 'SimHei', Arial, sans-serif~ " ++ nl
  ++ tpl "                    font-size=~" ++ numberToString (fontSize word) ++ tpl "~ " ++ nl
  ++ tpl "                    fill=~" ++ colorToString (color word) ++ tpl "~ " ++ nl
  ++ tpl "                    text-anchor=~middle~ " ++ nl
  ++ tpl "                    dominant-baseline=~middle~" ++ nl
  ++ tpl "                    font-weight=~" ++ fontWeight ++ tpl "~" ++ nl
  ++ tpl "                    transform=~rotate(" ++ numberToString (angle word)
  ++ tpl " " ++ cx ++ tpl " " ++ cy ++ tpl ")~>" ++ nl
  ++ tpl "                ".

Definition textElementClose : jsstring :=
  nl ++ tpl "              </text>".

Definition textElement (word : WordItem) : jsstring :=
  textElementOpen word ++ escapeXml (text word) ++ textElementClose.

Definition svgHeader (config : Options.t) : jsstring :=
  let w := numberToString (Options.width config) in
  let h := numberToString (Options.height config) in
  tpl "<?xml version=~1.0~ encoding=~UTF-8~?>" ++ nl
  ++ tpl "<svg width=~" ++ w ++ tpl "~ height=~" ++ h ++ tpl "~ " ++ nl
  ++ tpl "     xmlns=~http://www.w3.org/2000/svg~" ++ nl
  ++ tpl "     viewBox=~0 0 " ++ w ++ tpl " " ++ h ++ tpl "~>" ++ nl
  ++ tpl "  <defs>" ++ nl
  ++ tpl "    <style>" ++ nl
  ++ tpl "      <![CDATA[" ++ nl
  ++ tpl "        text {" ++ nl
  ++ tpl "          font-family: 'Microsoft YaHei', 'PingFang SC', 'SimHei', Arial, sans-serif;" ++ nl
  ++ tpl "          user-select: none;" ++ nl
  ++ tpl "        }" ++ nl
  ++ tpl "        svg {" ++ nl
  ++ tpl "          background-color: white;" ++ nl
  ++ tpl "        }" ++ nl
  ++ tpl "      ]]>" ++ nl
  ++ tpl "    </style>" ++ nl
  ++ tpl "  </defs>" ++ nl
  ++ tpl "  <rect width=~100%~ height=~100%~ fill=~white~/>" ++ nl
  ++ tpl "  ".

Definition svgFooter : jsstring := nl ++ tpl "</svg>".

Definition generateSVG (words : list WordItem) (config : Options.t) : jsstring :=
  let svgElements := join nl (map textElement words) in
  svgHeader config ++ svgElements ++ svgFooter.
End Renderer.

(* ================================================================== *)
(** ** The pipeline ([generate]) *)

Fixpoint startsWith (s prefix : jsstring) {struct prefix} : bool :=
  match prefix, s with
  | [], _ => true
  | p :: prefix', c :: s' => (c =? p)%N && startsWith s' prefix'
  | _ :: _, [] => false
  end.

Definition endsWith (s suffix : jsstring) : bool :=
  startsWith (rev s) (rev suffix).

(** [s.replace(pattern, replacement)] for a string pattern: the first
    occurrence. *)
Fixpoint replaceFirst (s pattern replacement : jsstring) : jsstring :=
  if startsWith s pattern then replacement ++ skipn (List.length pattern) s
  else match s with
       | [] => []
       | c :: t => c :: replaceFirst t pattern replacement
       end.

Definition setOutputPath (config : Options.t) (p : jsstring) : Options.t :=
  Options.mk (Options.theme config) (Options.shape config) (Options.wordGap config)
             (Options.fontSize config) (Options.angleRange config)
             (Options.angleStep config) p (Options.width config)
             (Options.height config).

(** The stages of the pipeline, logged as they are entered. *)
Inductive Stage : Type := Analyze | Prepare | Layout | Render | Save.

Section Pipeline.
Context {rt : Runtime}.

Definition svgOutputPath (config : Options.t) : Options.t :=
  if negb (endsWith (Options.outputPath config) (lit ".svg"))
  then
    let ext := path_extname (Options.outputPath config) in
    setOutputPath config (replaceFirst (Options.outputPath config) ext (lit ".svg"))
  else config.

Definition generate (fuel : nat) (text : jsstring) (options : Partial.t)
  : list Stage * result jsstring :=
  let config := svgOutputPath (mergeOptions defaultOptions options) in
  let wordFrequencies := analyzeWordFrequency text in
  if (List.length wordFrequencies =? 0)%nat
  then ([Analyze], Throw (GenerationFailed NoValidWords))
  else
    match prepareWordItems fuel wordFrequencies config with
    | Ok wordItems =>
        let layoutedWords := smartLayoutWords wordItems config in
        let svgContent := generateSVG layoutedWords config in
        match saveFile svgContent (Options.outputPath config) with
        | inl outputPath => ([Analyze; Prepare; Layout; Render; Save], Ok outputPath)
        | inr message =>
            ([Analyze; Prepare; Layout; Render; Save],
             Throw (GenerationFailed (SaveFileFailed message)))
        end
    | Throw e => ([Analyze; Prepare], Throw (GenerationFailed e))
    | OutOfFuel => ([Analyze; Prepare], OutOfFuel)
    | OffModel => ([Analyze; Prepare], OffModel)
    end.
End Pipeline.

(* ================================================================== *)
(** ** The sibling generators, where they differ *)

(** [AdvancedWordCloudGenerator] *)
Module Advanced.
Section Advanced.
Context {rt : Runtime}.

Definition calculateAdvancedFontSize (frequency minFreq maxFreq : Q)
           (fontSizeRange : Range.t) : Q :=
  if maxFreq =? minFreq
  then (Range.min fontSizeRange + Range.max fontSizeRange) / 2
  else
    let normalizedFreq := (frequency - minFreq) / (maxFreq - minFreq) in
    let logScale := Math_log (normalizedFreq + 1) / Math_log 2 in
    let enhancedScale := Math_pow logScale 0.8 in
    Range.min fontSizeRange
    + enhancedScale * (Range.max fontSizeRange - Range.min fontSizeRange).
End Advanced.
End Advanced.

(** [MultiFormatWordCloudGenerator] *)
Module MultiFormat.
Definition theme_default : list jsstring := map lit
  ["#FF6B6B"; "#4ECDC4"; "#45B7D1"; "#96CEB4"; "#FFEAA7";
   "#DDA0DD"; "#98D8C8"; "#FF7675"; "#74b9ff"; "#55a3ff"]%string.

Definition colorThemes : list (jsstring * list jsstring) :=
  [(lit "default", theme_default); (lit "warm", theme_warm);
   (lit "cool", theme_cool); (lit "nature", theme_nature);
   (lit "business", theme_business)].

Definition getThemeColors (theme : jsstring) : list jsstring :=
  orElse (lookupTheme colorThemes theme) theme_default.

Section MultiFormat.
Context {rt : Runtime}.

Definition calculateFontSize (frequency minFreq maxFreq : Q)
           (fontSizeRange : Range.t) : Q :=
  if maxFreq =? minFreq
  then (Range.min fontSizeRange + Range.max fontSizeRange) / 2
  else
    let normalizedFreq := (frequency - minFreq) / (maxFreq - minFreq) in
    let logScale := Math_log (normalizedFreq + 1) / Math_log 2 in
    let enhancedScale := Math_pow logScale 0.8 in
    Range.min fontSizeRange
    + enhancedScale * (Range.max fontSizeRange - Range.min fontSizeRange).

Definition selectColor (colors : list jsstring) (index : nat)
           (frequency maxFreq : Q) : option jsstring :=
  let frequencyRatio := frequency / maxFreq in
  if frequencyRatio >? 0.8
  then nth_error colors (index mod Nat.min 5 (List.length colors))
  else if frequencyRatio >? 0.5
  then nth_error colors (index mod Nat.min 10 (List.length colors))
  else nth_error colors (index mod List.length colors).

(** The call site passes [wordFrequencies.length] and [item.frequency]
    where [selectColor] expects [frequency] and [maxFreq]. *)
Definition prepareWordItems (fuel : nat) (wordFrequencies : list WordFreq)
           (config : Options.t) : result (list WordItem) :=
  match frequencies wordFrequencies with
  | [] => Ok []
  | f :: fs =>
      let maxFreq := Math_max_list f fs in
      let minFreq := Math_min_list f fs in
      let colors := getThemeColors (Options.theme config) in
      prepareLoop
        (fun frequency =>
           calculateFontSize frequency (inject_Z minFreq) (inject_Z maxFreq)
                             (Options.fontSize config))
        (fun index frequency =>
           selectColor colors index (ofNat (List.length wordFrequencies))
                       (inject_Z frequency))
        (fun calls index _ =>
           calculateAngle fuel calls index (Options.angleRange config)
                          (Options.angleStep config))
        0 0 wordFrequencies
  end.
End MultiFormat.
End MultiFormat.

(* ================================================================== *)
(** ** The colour rule as the specification words it

    Buckets by rank: ranks 0-4 index the first five palette entries, ranks
    5-14 (or a frequency ratio above one half) the first ten, all others
    the whole palette, cyclically by rank. *)

Definition spec_selectColor (colors : list jsstring) (rank : nat)
           (frequency maxFreq : Q) : option jsstring :=
  if (rank <? 5)%nat
  then nth_error colors (rank mod Nat.min 5 (List.length colors))
  else if (rank <? 15)%nat || (frequency / maxFreq >? 0.5)
  then nth_error colors (rank mod Nat.min 10 (List.length colors))
  else nth_error colors (rank mod List.length colors).

(* ================================================================== *)
(** ** A reference runtime

    Used to run the model on concrete inputs.  Its transcendental
    functions are truncated series, exact where the runs below consult
    them: [cos 0 = 1], [sin 0 = 0], [pow 0 e = 0], [pow 1 e = 1]. *)

Module Reference.
Definition cos (v : Q) : Q :=
  let s := v * v in
  Qred (1 - s / 2 * (1 - s / 12 * (1 - s / 30 * (1 - s / 56 * (1 - s / 90))))).

Definition sin (v : Q) : Q :=
  let s := v * v in
  Qred (v * (1 - s / 6 * (1 - s / 20 * (1 - s / 42 * (1 - s / 72 * (1 - s / 110)))))).

Definition exp (v : Q) : Q :=
  Qred (1 + v * (1 + v / 2 * (1 + v / 3 * (1 + v / 4 * (1 + v / 5 * (1 + v / 6)))))).

Definition log (v : Q) : Q :=
  let z := (v - 1) / (v + 1) in
  let s := z * z in
  Qred (2 * z * (1 + s / 3 + s * s / 5 + s * s * s / 7)).

Definition pow (b e : Q) : Q :=
  if b =? 0 then 0 else exp (e * log b).

Definition random (n : nat) : Q := ofNat (n mod 8) / 8.

Fixpoint digits (fuel : nat) (n : N) (acc : jsstring) : jsstring :=
  match fuel with
  | O => acc
  | S fuel' =>
      let acc' := (48 + n mod 10)%N :: acc in
      if (n / 10 =? 0)%N then acc' else digits fuel' (n / 10)%N acc'
  end.

(** An integer prints in decimal, any other number as a fraction. *)
Definition numberToString (v : Q) : jsstring :=
  let r := Qred v in
  let sign := if (Qnum r <? 0)%Z then [45%N] else [] in
  let num := Z.to_N (Z.abs (Qnum r)) in
  let den := Npos (Qden r) in
  sign ++ digits 64 num []
  ++ (if (den =? 1)%N then [] else 47%N :: digits 64 den []).

(** The part of the path from its last dot on. *)
Fixpoint extname (p : jsstring) : jsstring :=
  match p with
  | [] => []
  | c :: t =>
      match extname t with
      | [] => if (c =? 46)%N && forallb (fun d => negb (d =? 46)%N) t then p else []
      | e => e
      end
  end.

Definition saveFile (content outputPath : jsstring) : jsstring + jsstring :=
  inl outputPath.

Definition runtime : Runtime :=
  Build_Runtime (355 # 113) cos sin pow log random numberToString extname saveFile.
End Reference.

(* ================================================================== *)
(** ** Further functions of the generators *)

(** [getSupportedThemes]: the keys of [colorThemes], in their order. *)
Definition getSupportedThemes : list jsstring := map fst colorThemes.

(** [a.includes(s)] on an array of strings. *)
Definition includes (a : list jsstring) (s : jsstring) : bool :=
  existsb (fun t => str_eqb t s) a.

(** The errors of [validateOptions], one constructor for each message. *)
Inductive ValidationError : Type :=
| WidthOutOfRange
| HeightOutOfRange
| MinFontSizeOutOfRange
| MaxFontSizeOutOfRange
| FontSizeOrder
| UnsupportedTheme (theme : jsstring).

(** [v && (v < lo || v > hi)] for an optional number: an absent key and
    the number 0 are falsy. *)
Definition outOfRange (o : option Q) (lo hi : Q) : bool :=
  match o with
  | Some v => negb (v =? 0) && ((v <? lo) || (v >? hi))
  | None => false
  end.

Definition validateOptions (options : Partial.t) : bool * list ValidationError :=
  let errors1 :=
    if outOfRange (Partial.width options) 100 5000 then [WidthOutOfRange] else [] in
  let errors2 :=
    errors1 ++
    (if outOfRange (Partial.height options) 100 5000 then [HeightOutOfRange] else []) in
  let errors3 :=
    errors2 ++
    match Partial.fontSize options with
    | Some r =>
        (if (Range.min r <? 8) || (Range.min r >? 200)
         then [MinFontSizeOutOfRange] else [])
        ++ (if (Range.max r <? 8) || (Range.max r >? 200)
            then [MaxFontSizeOutOfRange] else [])
        ++ (if Range.max r <=? Range.min r then [FontSizeOrder] else [])
    | None => []
    end in
  let errors :=
    errors3 ++
    match Partial.theme options with
    | Some t =>
        if (0 <? List.length t)%nat && negb (includes getSupportedThemes t)
        then [UnsupportedTheme t] else []
    | None => []
    end in
  ((List.length errors =? 0)%nat, errors).

(** [selectTopWords] of the advanced generator.  [pickLoop] is its [for]
    loop over [remaining], whose step is at least 1: [fuel] counts the
    turns left and [remaining.length] of them are enough. *)
Module TopWords.
Section TopWords.
Variable maxCount : nat.
Variable remaining : list WordFreq.
Variable step : nat.

Fixpoint pickLoop (fuel i : nat) (selected : list WordFreq) : list WordFreq :=
  match fuel with
  | O => selected
  | S fuel' =>
      if (i <? List.length remaining)%nat && (List.length selected <? maxCount)%nat
      then match nth_error remaining i with
           | Some w => pickLoop fuel' (i + step) (selected ++ [w])
           | None => selected
           end
      else selected
  end.
End TopWords.

Definition selectTopWords (words : list WordFreq) (maxCount : nat) : list WordFreq :=
  if (List.length words <=? maxCount)%nat then words
  else
    match words with
    | [] => []
    | first :: _ =>
        let frequencyThreshold := inject_Z (wf_frequency first) * 0.1 in
        let highFreqWords :=
          filter (fun w => frequencyThreshold <=? inject_Z (wf_frequency w)) words in
        let selected :=
          firstn (Z.to_nat (Qfloor (Qmin (ofNat maxCount * 0.7)
                                         (ofNat (List.length highFreqWords)))))
                 highFreqWords in
        let remaining :=
          filter (fun w => inject_Z (wf_frequency w) <? frequencyThreshold) words in
        let remainingSlots := (maxCount - List.length selected)%nat in
        let selected' :=
          if (0 <? remainingSlots)%nat && (0 <? List.length remaining)%nat
          then
            let step := Nat.max 1 (List.length remaining / remainingSlots) in
            pickLoop maxCount remaining step (List.length remaining) 0 selected
          else selected in
        firstn maxCount selected'
    end.
End TopWords.

(** [adjustOutputPath] of the multi-format generator. *)
Definition adjustOutputPath {rt : Runtime} (outputPath format : jsstring) : jsstring :=
  let ext := path_extname outputPath in
  let expectedExt := lit "." ++ format in
  if negb (str_eqb ext expectedExt)
  then replaceFirst outputPath ext expectedExt
  else outputPath.

(* ================================================================== *)
(** ** Vocabulary of the statements *)

(** [a] occurs somewhere before [b] in [l]. *)
Definition before (A : Type) (a b : A) (l : list A) : Prop :=
  exists l1 l2 l3, l = l1 ++ a :: l2 ++ b :: l3.

(** The first occurrence of [u] in [ws] comes before any occurrence of [v]. *)
Definition firstSeenBefore (u v : jsstring) (ws : list jsstring) : Prop :=
  exists pre post, ws = pre ++ u :: post /\ ~ In u pre /\ ~ In v pre.

Definition str_dec : forall a b : jsstring, {a = b} + {a <> b} :=
  list_eq_dec N.eq_dec.

(** Two rectangles are apart: a vertical or a horizontal line separates
    them strictly.  Rectangles that are not apart share a point. *)
Definition apart (r1 r2 : Rect.t) : Prop :=
  Rect.x r1 + Rect.width r1 < Rect.x r2
  \/ Rect.x r2 + Rect.width r2 < Rect.x r1
  \/ Rect.y r1 + Rect.height r1 < Rect.y r2
  \/ Rect.y r2 + Rect.height r2 < Rect.y r1.

Definition intersecting (r1 r2 : Rect.t) : Prop :=
  Rect.x r2 <= Rect.x r1 + Rect.width r1
  /\ Rect.x r1 <= Rect.x r2 + Rect.width r2
  /\ Rect.y r2 <= Rect.y r1 + Rect.height r1
  /\ Rect.y r1 <= Rect.y r2 + Rect.height r2.

(** The box of a placed word lies within [margin] of the canvas edges. *)
Definition withinMargin (config : Options.t) (margin : Q) (word : WordItem) : Prop :=
  margin <= x word
  /\ margin <= y word
  /\ x word + width word <= Options.width config - margin
  /\ y word + height word <= Options.height config - margin.

(** The word fits the canvas with [wordGap] to spare on every side. *)
Definition fitsCanvas (config : Options.t) (word : WordItem) : Prop :=
  width word + 2 * Options.wordGap config <= Options.width config
  /\ height word + 2 * Options.wordGap config <= Options.height config.

(** The box of a placed word, padded by the gap used while searching. *)
Definition searchedArea (config : Options.t) (word : WordItem) : Rect.t :=
  paddedArea word (x word) (y word) (searchGap word config).

(** The box of a placed word. *)
Definition boxOf (word : WordItem) : Rect.t :=
  Rect.mk (x word) (y word) (width word) (height word).

(** The cap of the anti-dominance rule. *)
Definition sizeCap (r : Range.t) : Q :=
  Range.min r + 0.8 * (Range.max r - Range.min r).

(** The five entity references, and a scan that accepts a text when it
    holds no angle bracket and no quote character (units 60, 62, 34, 39)
    and every ampersand (unit 38) in it opens one of the references. *)
Definition entities : list jsstring :=
  map lit ["&amp;"; "&lt;"; "&gt;"; "&quot;"; "&#39;"]%string.

Fixpoint wellEscaped (s : jsstring) : bool :=
  match s with
  | [] => true
  | c :: t =>
      if (c =? 38)%N then existsb (startsWith s) entities && wellEscaped t
      else negb ((c =? 60) || (c =? 62) || (c =? 34) || (c =? 39))%N && wellEscaped t
  end.

(** What [escapeXml] does to one code unit. *)
Definition escapeUnit (c : N) : jsstring :=
  if (c =? 38)%N then lit "&amp;"
  else if (c =? 60)%N then lit "&lt;"
  else if (c =? 62)%N then lit "&gt;"
  else if (c =? 34)%N then lit "&quot;"
  else if (c =? 39)%N then lit "&#39;"
  else [c].

(** Numbers of wide and of narrow characters of a text. *)
Definition wideCount (text : jsstring) : nat :=
  List.length (filter isCJK (chars text)).
Definition narrowCount (text : jsstring) : nat :=
  List.length (filter (fun c => negb (isCJK c)) (chars text)).

(** The distinct words of [ws] in the order of their first occurrence,
    those of [seen] left out. *)
Fixpoint firstOcc (seen ws : list jsstring) : list jsstring :=
  match ws with
  | [] => []
  | w :: t =>
      if in_dec str_dec w seen then firstOcc seen t
      else w :: firstOcc (w :: seen) t
  end.

(** A token: not empty and free of white space. *)
Definition clean (w : jsstring) : Prop :=
  w <> [] /\ Forall (fun c => isWhiteSpace c = false) w.

(** [m.set(w, (m.get(w) || 0) + 1)] *)
Definition bump (m : FreqMap) (w : jsstring) : FreqMap :=
  mapSet m w (getOrZero m w + 1)%Z.

Definition keys (m : FreqMap) : list jsstring := map fst m.

(** The words that the pipeline places for a text, when the preparer
    returns. *)
Definition layoutOf {rt : Runtime} (fuel : nat) (text : jsstring)
           (config : Options.t) : list WordItem :=
  match prepareWordItems fuel (analyzeWordFrequency text) config with
  | Ok items => smartLayoutWords items config
  | _ => []
  end.

Definition preparedOf {rt : Runtime} (fuel : nat) (text : jsstring)
           (config : Options.t) : list WordItem :=
  match prepareWordItems fuel (analyzeWordFrequency text) config with
  | Ok items => items
  | _ => []
  end.

(** A rectangle with its coordinates in lowest terms. *)
Definition normRect (r : Rect.t) : Rect.t :=
  Rect.mk (Qred (Rect.x r)) (Qred (Rect.y r))
          (Qred (Rect.width r)) (Qred (Rect.height r)).

(** What the search promises about a position it accepts. *)
Definition accepted (word : WordItem) (occupiedAreas : list Rect.t)
           (config : Options.t) (p : Q * Q) : Prop :=
  10 <= fst p /\ 10 <= snd p
  /\ fst p + width word <= Options.width config - 10
  /\ snd p + height word <= Options.height config - 10
  /\ Forall (apart (paddedArea word (fst p) (snd p) (searchGap word config)))
            occupiedAreas.

(** What holds of the words placed so far. *)
Definition good (config : Options.t) (placed : list WordItem) : Prop :=
  Forall (fun w => fitsCanvas config w ->
                   withinMargin config (Options.wordGap config) w) placed
  /\ (Options.wordGap config <= 10 ->
      forall a b, before a b placed ->
        withinMargin config 10 b
        /\ apart (searchedArea config b) (recordedArea config a)).

(** The word [word] with another text. *)
Definition setText (word : WordItem) (t : jsstring) : WordItem :=
  mkWordItem t (frequency word) (fontSize word) (color word) (angle word)
             (x word) (y word) (width word) (height word).

(** Sample inputs and read-outs of the statements at concrete inputs. *)
Definition fontSizes (r : result (list WordItem)) : list Q :=
  match r with Ok items => map fontSize items | _ => [] end.

Definition narrowRange : Options.t :=
  Options.mk (lit "default") (lit "rectangle") 3 (Range.mk 10 12)
             (Range.mk (-45) 45) 15 (lit "./wordcloud.svg") 800 600.

Definition thirteenWords : jsstring :=
  lit "w0 w0 w1 w2 w3 w4 w5 w6 w7 w8 w9 w10 w11 w12".

Definition colorAt (n : nat) (r : result (list WordItem)) : option jsstring :=
  match r with
  | Ok items => match nth_error items n with Some w => color w | None => None end
  | _ => None
  end.

Definition longWord : jsstring := lit "abcdefghijklmnopqrstuvwxyz0123456".

Definition overlapOptions : Options.t :=
  Options.mk (lit "default") (lit "rectangle") 2 (Range.mk 25 26)
             (Range.mk (-45) 45) 15 (lit "./wordcloud.svg") 800 600.

Definition overlapLayout : list WordItem :=
  Eval vm_compute in @layoutOf Reference.runtime 10 (lit "a a b") overlapOptions.

Definition nowhere : WordItem := mkWordItem [] 0 0 None 0 0 0 0 0.

Definition wideGapOptions : Options.t :=
  Options.mk (lit "default") (lit "rectangle") 17 (Range.mk 16 30)
             (Range.mk (-45) 45) 15 (lit "./wordcloud.svg") 200 200.

Definition sampleLayout : list WordItem :=
  Eval vm_compute in @layoutOf Reference.runtime 10 (lit "a a b") defaultOptions.

(** A decoder of the five entity references: [fuel] bounds the number of
    units read, and the length of the text is enough. *)
Fixpoint unescapeLoop (fuel : nat) (s : jsstring) : jsstring :=
  match fuel with
  | O => []
  | S fuel' =>
      match s with
      | [] => []
      | c :: t =>
          if (c =? 38)%N then
            if startsWith t (lit "amp;") then 38%N :: unescapeLoop fuel' (skipn 4 t)
            else if startsWith t (lit "lt;") then 60%N :: unescapeLoop fuel' (skipn 3 t)
            else if startsWith t (lit "gt;") then 62%N :: unescapeLoop fuel' (skipn 3 t)
            else if startsWith t (lit "quot;") then 34%N :: unescapeLoop fuel' (skipn 5 t)
            else if startsWith t (lit "#39;") then 39%N :: unescapeLoop fuel' (skipn 4 t)
            else c :: unescapeLoop fuel' t
          else c :: unescapeLoop fuel' t
      end
  end.

Definition unescapeXml (s : jsstring) : jsstring := unescapeLoop (List.length s) s.

Definition reserved (c : N) : bool :=
  ((c =? 38) || (c =? 60) || (c =? 62) || (c =? 34) || (c =? 39))%N.

(** [out] is made of words of [l], in their order, each at a position of
    its own and otherwise untouched. *)
Inductive picked : list WordItem -> list WordItem -> Prop :=
| picked_nil : picked [] []
| picked_skip (w : WordItem) (l out : list WordItem) :
    picked l out -> picked (w :: l) out
| picked_take (w : WordItem) (x' y' : Q) (l out : list WordItem) :
    picked l out -> picked (w :: l) (setPosition w x' y' :: out).

Definition sumFrequencies (l : list WordFreq) : Z :=
  fold_right (fun e acc => (wf_frequency e + acc)%Z) 0%Z l.

Definition words (l : list WordFreq) : list jsstring := map wf_word l.

Definition space : jsstring := [32%N].

(** All stages of the pipeline, in the order in which they are entered. *)
Definition allStages : list Stage := [Analyze; Prepare; Layout; Render; Save].

Definition sumCounts (m : FreqMap) : Z :=
  fold_right (fun e acc => (snd e + acc)%Z) 0%Z m.

(** [R i a b] holds of the elements of two lists taken in step, [i]
    counting on from the index of the first pair. *)
Inductive Forall2i (A B : Type) (R : nat -> A -> B -> Prop)
  : nat -> list A -> list B -> Prop :=
| Forall2i_nil (i : nat) : Forall2i R i [] []
| Forall2i_cons (i : nat) (a : A) (b : B) (l : list A) (l' : list B) :
    R i a b -> Forall2i R (S i) l l' -> Forall2i R i (a :: l) (b :: l').

(** The glyph box that the preparer makes of the ranked word [item] at
    rank [index], given the angle that was drawn for it. *)
Definition glyphBox {rt : Runtime} (sizeOf : Q -> Q)
           (colorOf : nat -> Z -> option jsstring)
           (index : nat) (item : WordFreq) (angle : Q) : WordItem :=
  let fontSize := sizeOf (inject_Z (wf_frequency item)) in
  let dimensions := estimateTextDimensions (wf_word item) fontSize angle in
  mkWordItem (wf_word item) (wf_frequency item) (inject_Z (Math_round fontSize))
             (colorOf index (wf_frequency item)) angle 0 0
             (Size.width dimensions) (Size.height dimensions).

(** The point [(px, py)] lies in the closed rectangle [r]. *)
Definition inside (r : Rect.t) (px py : Q) : Prop :=
  Rect.x r <= px /\ px <= Rect.x r + Rect.width r
  /\ Rect.y r <= py /\ py <= Rect.y r + Rect.height r.

(** The search has a radius to start from: its first radius lies below
    the largest one. *)
Definition room (config : Options.t) (word : WordItem) : Prop :=
  startRadius word < maxRadius word config.

(** Falling font sizes. *)
Definition bySizeFalling (u v : WordItem) : Prop := fontSize v <= fontSize u.

(** The glyph boxes of a run of a preparer that returned. *)
Definition itemsOf (r : result (list WordItem)) : list WordItem :=
  match r with Ok items => items | _ => [] end.

(* ================================================================== *)
(** * Properties *)

(** ** Comparisons *)

Lemma Qltb_lt (a b : Q) : (a <? b) = true <-> a < b.
Proof.
  unfold Qltb. rewrite negb_true_iff.
  split; intro H.
  - apply Qnot_le_lt. intro Hle. apply Qle_bool_iff in Hle. congruence.
  - destruct (Qle_bool b a) eqn:E; [|reflexivity].
    apply Qle_bool_iff in E. lra.
Qed.

Lemma Qltb_ge (a b : Q) : (a <? b) = false <-> b <= a.
Proof.
  unfold Qltb. rewrite negb_false_iff. apply Qle_bool_iff.
Qed.

Lemma Qgtb_gt (a b : Q) : (a >? b) = true <-> b < a.
Proof. apply Qltb_lt. Qed.

Lemma Qgtb_le (a b : Q) : (a >? b) = false <-> a <= b.
Proof. apply Qltb_ge. Qed.

Lemma Qleb_gt (a b : Q) : (a <=? b) = false <-> b < a.
Proof.
  split; intro H.
  - apply Qnot_le_lt. intro Hle. apply Qle_bool_iff in Hle. congruence.
  - destruct (Qle_bool a b) eqn:E; [|reflexivity].
    apply Qle_bool_iff in E. lra.
Qed.

Lemma isOverlapping_false (r1 r2 : Rect.t) :
  isOverlapping r1 r2 = false <-> apart r1 r2.
Proof.
  unfold isOverlapping, apart. rewrite negb_false_iff, !orb_true_iff, !Qltb_lt.
  tauto.
Qed.

Lemma isOverlapping_true (r1 r2 : Rect.t) :
  isOverlapping r1 r2 = true <-> intersecting r1 r2.
Proof.
  unfold isOverlapping, intersecting.
  rewrite negb_true_iff, !orb_false_iff, !Qltb_ge. tauto.
Qed.

Lemma intersecting_not_apart (r1 r2 : Rect.t) :
  intersecting r1 r2 <-> ~ apart r1 r2.
Proof.
  rewrite <- isOverlapping_true, <- isOverlapping_false.
  destruct (isOverlapping r1 r2); split; congruence.
Qed.

Lemma Math_round_mono (a b : Q) : a <= b -> (Math_round a <= Math_round b)%Z.
Proof. intro H. apply Qfloor_resp_le. lra. Qed.

Lemma Math_round_upper (a : Q) : inject_Z (Math_round a) <= a + 0.5.
Proof. apply Qfloor_le. Qed.

(* ================================================================== *)
(** ** Lists: [before], [firstn] *)

Lemma before_cons (A : Type) (a b c : A) (l : list A) :
  before a b l -> before a b (c :: l).
Proof.
  intros (l1 & l2 & l3 & ->). exists (c :: l1), l2, l3. reflexivity.
Qed.

Lemma before_head (A : Type) (a b : A) (l : list A) :
  In b l -> before a b (a :: l).
Proof.
  intro H. apply in_split in H as (l2 & l3 & ->).
  exists [], l2, l3. reflexivity.
Qed.

Lemma before_cons_inv (A : Type) (a b c : A) (l : list A) :
  before a b (c :: l) -> (a = c /\ In b l) \/ before a b l.
Proof.
  intros (l1 & l2 & l3 & E). destruct l1 as [|d l1]; simpl in E.
  - injection E as -> ->. left. split; [reflexivity|].
    apply in_or_app. right. left. reflexivity.
  - injection E as -> ->. right. exists l1, l2, l3. reflexivity.
Qed.

Lemma before_In (A : Type) (a b : A) (l : list A) :
  before a b l -> In a l /\ In b l.
Proof.
  intros (l1 & l2 & l3 & ->). split.
  - apply in_or_app. right. left. reflexivity.
  - apply in_or_app. right. right. apply in_or_app. right. left. reflexivity.
Qed.

Lemma before_app_l (A : Type) (a b : A) (l l' : list A) :
  before a b l -> before a b (l ++ l').
Proof.
  intros (l1 & l2 & l3 & ->). exists l1, l2, (l3 ++ l').
  rewrite <- !app_assoc. simpl. rewrite <- app_assoc. reflexivity.
Qed.

Lemma before_firstn (A : Type) (a b : A) (n : nat) (l : list A) :
  before a b (firstn n l) -> before a b l.
Proof.
  intro H. rewrite <- (firstn_skipn n l). apply before_app_l, H.
Qed.

Lemma before_map_inv (A B : Type) (f : A -> B) (u v : B) (l : list A) :
  before u v (map f l) ->
  exists a b, f a = u /\ f b = v /\ before a b l.
Proof.
  induction l as [|c l IH]; intro H.
  - destruct H as (l1 & l2 & l3 & E). destruct l1; discriminate.
  - simpl in H. apply before_cons_inv in H as [[-> Hin] | H].
    + apply in_map_iff in Hin as (b & <- & Hin).
      exists c, b. repeat split. apply before_head, Hin.
    + destruct (IH H) as (a & b & Ha & Hb & Hab).
      exists a, b. repeat split; try assumption. apply before_cons, Hab.
Qed.

Lemma before_map (A B : Type) (f : A -> B) (a b : A) (l : list A) :
  before a b l -> before (f a) (f b) (map f l).
Proof.
  intros (l1 & l2 & l3 & ->).
  exists (map f l1), (map f l2), (map f l3).
  rewrite map_app. simpl. rewrite map_app. reflexivity.
Qed.

Lemma before_snoc_inv (A : Type) (a b c : A) (l : list A) :
  before a b (l ++ [c]) -> before a b l \/ (In a l /\ b = c).
Proof.
  induction l as [|d l IH]; simpl; intro H.
  - destruct H as (l1 & l2 & l3 & E).
    destruct l1 as [|? l1]; simpl in E.
    + injection E as _ E. destruct l2; discriminate.
    + injection E as _ E. destruct l1; discriminate.
  - apply before_cons_inv in H as [[-> Hin] | H].
    + apply in_app_or in Hin as [Hin | [<- | []]].
      * left. apply before_head, Hin.
      * right. split; [left; reflexivity | reflexivity].
    + destruct (IH H) as [Hb | [Hin ->]].
      * left. apply before_cons, Hb.
      * right. split; [right; exact Hin | reflexivity].
Qed.

Lemma StronglySorted_app_l (A : Type) (R : A -> A -> Prop) (l l' : list A) :
  StronglySorted R (l ++ l') -> StronglySorted R l.
Proof.
  induction l as [|a l IH]; simpl; intro H.
  - constructor.
  - inversion H as [|? ? Hs Hf]; subst. constructor.
    + apply IH, Hs.
    + apply Forall_app in Hf. apply Hf.
Qed.

Lemma StronglySorted_firstn (A : Type) (R : A -> A -> Prop) (n : nat) (l : list A) :
  StronglySorted R l -> StronglySorted R (firstn n l).
Proof.
  intro H. rewrite <- (firstn_skipn n l) in H.
  apply StronglySorted_app_l in H. exact H.
Qed.

Lemma In_firstn (A : Type) (a : A) (n : nat) (l : list A) :
  In a (firstn n l) -> In a l.
Proof.
  intro H. rewrite <- (firstn_skipn n l). apply in_or_app. left. exact H.
Qed.

(* ================================================================== *)
(** ** The sort: permutation, order, stability *)

Section SortFacts.
Variable A : Type.
Variable key : A -> Q.
Variable cmp : A -> A -> Q.
Hypothesis cmp_key : forall a b, cmp a b == key b - key a.

Lemma insertSorted_perm (a : A) (l : list A) :
  Permutation (insertSorted cmp a l) (a :: l).
Proof.
  induction l as [|b l IH]; simpl.
  - apply Permutation_refl.
  - destruct (0 <? cmp a b).
    + eapply Permutation_trans; [apply perm_skip, IH | apply perm_swap].
    + apply Permutation_refl.
Qed.

Lemma jsSort_perm (l : list A) : Permutation (jsSort cmp l) l.
Proof.
  induction l as [|a l IH]; simpl.
  - apply Permutation_refl.
  - eapply Permutation_trans; [apply insertSorted_perm | apply perm_skip, IH].
Qed.

Lemma jsSort_In (a : A) (l : list A) : In a (jsSort cmp l) <-> In a l.
Proof.
  split; apply Permutation_in;
    [apply jsSort_perm | apply Permutation_sym, jsSort_perm].
Qed.

Lemma insertSorted_sorted (a : A) (l : list A) :
  StronglySorted (fun u v => key v <= key u) l ->
  StronglySorted (fun u v => key v <= key u) (insertSorted cmp a l).
Proof.
  induction l as [|b l IH]; simpl; intro H.
  - repeat constructor.
  - inversion H as [|? ? Hs Hf]; subst.
    destruct (0 <? cmp a b) eqn:E.
    + apply Qltb_lt in E. rewrite cmp_key in E.
      constructor; [apply IH, Hs|].
      apply (Permutation_Forall (Permutation_sym (insertSorted_perm a l))).
      constructor; [lra | exact Hf].
    + apply Qltb_ge in E. rewrite cmp_key in E.
      constructor; [exact H|].
      constructor; [lra|].
      revert Hf. apply Forall_impl. intros c Hc. lra.
Qed.

Lemma jsSort_sorted (l : list A) :
  StronglySorted (fun u v => key v <= key u) (jsSort cmp l).
Proof.
  induction l as [|a l IH]; simpl.
  - constructor.
  - apply insertSorted_sorted, IH.
Qed.

(** An element enters behind those with a strictly larger key only. *)
Lemma insertSorted_before (a b c : A) (l : list A) :
  before a b (insertSorted cmp c l) ->
  (a = c /\ In b l) \/ before a b l \/ (b = c /\ key b < key a).
Proof.
  induction l as [|d l IH]; simpl; intro H.
  - destruct H as (l1 & l2 & l3 & E).
    destruct l1 as [|? l1]; simpl in E.
    + injection E as _ E. destruct l2; discriminate.
    + injection E as _ E. destruct l1; discriminate.
  - destruct (0 <? cmp c d) eqn:E.
    + apply Qltb_lt in E. rewrite cmp_key in E.
      apply before_cons_inv in H as [[-> Hin] | H].
      * apply (Permutation_in _ (insertSorted_perm c l)) in Hin.
        destruct Hin as [<- | Hin].
        -- right. right. split; [reflexivity | lra].
        -- right. left. apply before_head, Hin.
      * destruct (IH H) as [[-> Hin] | [Hb | Hc]].
        -- left. split; [reflexivity | right; exact Hin].
        -- right. left. apply before_cons, Hb.
        -- right. right. exact Hc.
    + apply before_cons_inv in H as [[-> Hin] | H].
      * left. split; [reflexivity | exact Hin].
      * right. left. exact H.
Qed.

(** Stability: elements with equal keys keep their order. *)
Lemma jsSort_stable (a b : A) (l : list A) :
  before a b (jsSort cmp l) -> key a <= key b -> before a b l.
Proof.
  induction l as [|c l IH]; simpl; intros H Hk.
  - destruct H as (l1 & l2 & l3 & E). destruct l1; discriminate.
  - apply insertSorted_before in H as [[-> Hin] | [H | [_ Hlt]]].
    + apply before_head. apply jsSort_In, Hin.
    + apply before_cons, IH; assumption.
    + lra.
Qed.

Lemma jsSort_length (l : list A) : List.length (jsSort cmp l) = List.length l.
Proof. apply Permutation_length, jsSort_perm. Qed.
End SortFacts.

(* ================================================================== *)
(** ** Tokens *)

Lemma dropWhile_head (A : Type) (p : A -> bool) (l : list A) :
  Forall (fun c => p c = false) l -> dropWhile p l = l.
Proof.
  intro H. destruct H as [|c l Hc _]; simpl; [reflexivity|].
  rewrite Hc. reflexivity.
Qed.

Lemma trim_clean (w : jsstring) :
  Forall (fun c => isWhiteSpace c = false) w -> trim w = w.
Proof.
  intro H. unfold trim. rewrite (dropWhile_head _ H).
  rewrite dropWhile_head by (apply Forall_rev, H).
  apply rev_involutive.
Qed.

Lemma splitLoop_free (s cur : jsstring) (inRun : bool) :
  Forall (fun c => isWhiteSpace c = false) cur ->
  Forall (Forall (fun c => isWhiteSpace c = false)) (splitLoop s cur inRun).
Proof.
  revert cur inRun. induction s as [|c s IH]; simpl; intros cur inRun H.
  - constructor; [apply Forall_rev, H | constructor].
  - destruct (isWhiteSpace c) eqn:E.
    + destruct inRun.
      * apply IH. constructor.
      * constructor; [apply Forall_rev, H | apply IH; constructor].
    + apply IH. constructor; assumption.
Qed.

Lemma tokens_clean (text : jsstring) : Forall clean (tokens text).
Proof.
  unfold tokens. apply Forall_forall. intros w Hw.
  apply filter_In in Hw as [Hin Hne]. split.
  - unfold nonEmpty in Hne. destruct w; [discriminate | discriminate].
  - pose proof (@splitLoop_free text [] false (Forall_nil _)) as H.
    rewrite Forall_forall in H. apply H, Hin.
Qed.

Lemma countWord_clean (m : FreqMap) (w : jsstring) :
  clean w -> countWord m w = bump m w.
Proof.
  intros [Hne Hfree]. unfold countWord, bump.
  rewrite (trim_clean Hfree). destruct w; [contradiction | reflexivity].
Qed.

Lemma fold_countWord_clean (ws : list jsstring) (m : FreqMap) :
  Forall clean ws -> fold_left countWord ws m = fold_left bump ws m.
Proof.
  revert m. induction ws as [|w ws IH]; simpl; intros m H; [reflexivity|].
  inversion H; subst. rewrite countWord_clean by assumption. apply IH. assumption.
Qed.

(* ================================================================== *)
(** ** The frequency map *)

Lemma str_eqb_eq (a b : jsstring) : str_eqb a b = true <-> a = b.
Proof.
  unfold str_eqb. destruct (list_eq_dec N.eq_dec a b); split; congruence.
Qed.

Lemma str_eqb_neq (a b : jsstring) : str_eqb a b = false <-> a <> b.
Proof.
  unfold str_eqb. destruct (list_eq_dec N.eq_dec a b); split; congruence.
Qed.

Lemma keys_mapSet (m : FreqMap) (k : jsstring) (v : Z) :
  keys (mapSet m k v) = if in_dec str_dec k (keys m) then keys m else keys m ++ [k].
Proof.
  induction m as [|[k' v'] m IH]; simpl; [reflexivity|].
  destruct (str_eqb k' k) eqn:E.
  - apply str_eqb_eq in E. subst k'. simpl.
    destruct (str_dec k k); [|contradiction].
    destruct (in_dec str_dec k (keys m)); reflexivity.
  - apply str_eqb_neq in E. simpl. rewrite IH.
    destruct (str_dec k' k); [contradiction|].
    destruct (in_dec str_dec k (keys m)); reflexivity.
Qed.

Lemma mapGet_mapSet (m : FreqMap) (k k' : jsstring) (v : Z) :
  mapGet (mapSet m k v) k' = if str_dec k k' then Some v else mapGet m k'.
Proof.
  induction m as [|[k0 v0] m IH]; simpl.
  - destruct (str_dec k k') as [->|Hn].
    + assert (E : str_eqb k' k' = true) by (apply str_eqb_eq; reflexivity).
      rewrite E. reflexivity.
    + apply str_eqb_neq in Hn. rewrite Hn. reflexivity.
  - destruct (str_eqb k0 k) eqn:E.
    + apply str_eqb_eq in E. subst k0. simpl.
      destruct (str_dec k k') as [->|Hn].
      * assert (E : str_eqb k' k' = true) by (apply str_eqb_eq; reflexivity).
        rewrite E. reflexivity.
      * apply str_eqb_neq in Hn. rewrite Hn. reflexivity.
    + simpl. rewrite IH. destruct (str_eqb k0 k') eqn:E'; [|reflexivity].
      apply str_eqb_eq in E'. subst k0. apply str_eqb_neq in E.
      destruct (str_dec k k'); [congruence | reflexivity].
Qed.

Lemma firstOcc_ext (s1 s2 ws : list jsstring) :
  (forall w, In w s1 <-> In w s2) -> firstOcc s1 ws = firstOcc s2 ws.
Proof.
  revert s1 s2. induction ws as [|w ws IH]; simpl; intros s1 s2 H; [reflexivity|].
  destruct (in_dec str_dec w s1) as [H1|H1], (in_dec str_dec w s2) as [H2|H2].
  - apply IH, H.
  - apply H in H1. contradiction.
  - apply H in H2. contradiction.
  - f_equal. apply IH. intro u. simpl. rewrite H. tauto.
Qed.

Lemma keys_fold_bump (ws : list jsstring) (m : FreqMap) :
  keys (fold_left bump ws m) = keys m ++ firstOcc (keys m) ws.
Proof.
  revert m. induction ws as [|w ws IH]; simpl; intro m.
  - rewrite app_nil_r. reflexivity.
  - rewrite IH. unfold bump. rewrite keys_mapSet.
    destruct (in_dec str_dec w (keys m)); [reflexivity|].
    rewrite <- app_assoc. simpl. f_equal. f_equal.
    apply firstOcc_ext. intro u. rewrite in_app_iff. simpl. tauto.
Qed.

Lemma getOrZero_fold_bump (ws : list jsstring) (m : FreqMap) (k : jsstring) :
  getOrZero (fold_left bump ws m) k
  = (getOrZero m k + Z.of_nat (count_occ str_dec ws k))%Z.
Proof.
  revert m. induction ws as [|w ws IH]; simpl; intro m.
  - lia.
  - rewrite IH. unfold getOrZero at 1. unfold bump. rewrite mapGet_mapSet.
    destruct (str_dec w k) as [->|Hn].
    + fold (getOrZero m k). lia.
    + fold (getOrZero m k). lia.
Qed.

Lemma firstOcc_In (seen ws : list jsstring) (w : jsstring) :
  In w (firstOcc seen ws) -> In w ws /\ ~ In w seen.
Proof.
  revert seen. induction ws as [|u ws IH]; simpl; intros seen H; [contradiction|].
  destruct (in_dec str_dec u seen) as [Hs|Hs].
  - destruct (IH _ H). tauto.
  - destruct H as [<- | H]; [tauto|].
    destruct (IH _ H) as [H1 H2]. simpl in H2. tauto.
Qed.

Lemma firstOcc_NoDup (seen ws : list jsstring) : NoDup (firstOcc seen ws).
Proof.
  revert seen. induction ws as [|u ws IH]; simpl; intro seen; [constructor|].
  destruct (in_dec str_dec u seen); [apply IH|].
  constructor; [|apply IH].
  intro H. apply firstOcc_In in H as [_ H]. apply H. left. reflexivity.
Qed.

Lemma firstOcc_before (seen ws : list jsstring) (u v : jsstring) :
  before u v (firstOcc seen ws) -> firstSeenBefore u v ws.
Proof.
  revert seen. induction ws as [|w ws IH]; simpl; intros seen H.
  - destruct H as (l1 & l2 & l3 & E). destruct l1; discriminate.
  - destruct (in_dec str_dec w seen) as [Hs|Hs].
    + destruct (before_In H) as [Hu Hv].
      apply firstOcc_In in Hu as [_ Hu]. apply firstOcc_In in Hv as [_ Hv].
      destruct (IH _ H) as (pre & post & -> & H1 & H2).
      exists (w :: pre), post. simpl. split; [reflexivity | split].
      * intros [<- | Hin]; tauto.
      * intros [<- | Hin]; tauto.
    + apply before_cons_inv in H as [[-> Hin] | H].
      * exists [], ws. simpl. tauto.
      * destruct (before_In H) as [Hu Hv].
        apply firstOcc_In in Hu as [_ Hu]. apply firstOcc_In in Hv as [_ Hv].
        simpl in Hu, Hv.
        destruct (IH _ H) as (pre & post & -> & H1 & H2).
        exists (w :: pre), post. simpl. split; [reflexivity | split].
        -- intros [<- | Hin]; tauto.
        -- intros [<- | Hin]; tauto.
Qed.

Lemma mapGet_In (m : FreqMap) (k : jsstring) (v : Z) :
  NoDup (keys m) -> In (k, v) m -> mapGet m k = Some v.
Proof.
  induction m as [|[k' v'] m IH]; simpl; intros Hnd Hin; [contradiction|].
  inversion Hnd as [|? ? Hni Hnd']; subst.
  destruct Hin as [E | Hin].
  - injection E as -> ->.
    assert (E : str_eqb k k = true) by (apply str_eqb_eq; reflexivity).
    rewrite E. reflexivity.
  - destruct (str_eqb k' k) eqn:E.
    + apply str_eqb_eq in E. subst k'. exfalso. apply Hni.
      apply (in_map fst) in Hin. exact Hin.
    + apply IH; assumption.
Qed.

(* ================================================================== *)
(** ** Frequency Analyzer: the ranking *)

Lemma StronglySorted_impl (A : Type) (R R' : A -> A -> Prop) (l : list A) :
  (forall a b, R a b -> R' a b) -> StronglySorted R l -> StronglySorted R' l.
Proof.
  intros HR H. induction H as [|a l Hs IH Hf]; constructor.
  - exact IH.
  - revert Hf. apply Forall_impl. intro b. apply HR.
Qed.

Lemma byFrequencyDesc_key (a b : WordFreq) :
  byFrequencyDesc a b
  == (fun e => inject_Z (wf_frequency e)) b - (fun e => inject_Z (wf_frequency e)) a.
Proof. reflexivity. Qed.

Lemma rankTokens_spec (cap : nat) (ws : list jsstring) :
  Forall clean ws ->
  StronglySorted (fun a b => (wf_frequency b <= wf_frequency a)%Z) (rankTokens cap ws)
  /\ (forall a b, before a b (rankTokens cap ws) ->
                  wf_frequency a = wf_frequency b ->
                  firstSeenBefore (wf_word a) (wf_word b) ws)
  /\ (List.length (rankTokens cap ws) <= cap)%nat
  /\ Forall (fun e => (1 <= wf_frequency e)%Z
                      /\ wf_frequency e = Z.of_nat (count_occ str_dec ws (wf_word e)))
            (rankTokens cap ws).
Proof.
  intro Hclean. unfold rankTokens. rewrite (fold_countWord_clean _ Hclean).
  set (m := fold_left bump ws []).
  assert (Hkeys : keys m = firstOcc [] ws) by (unfold m; rewrite keys_fold_bump; reflexivity).
  assert (Hnd : NoDup (keys m)) by (rewrite Hkeys; apply firstOcc_NoDup).
  set (entries := map (fun e => mkWordFreq (fst e) (snd e)) m).
  repeat split.
  - apply StronglySorted_firstn.
    apply StronglySorted_impl
      with (R := fun a b => inject_Z (wf_frequency b) <= inject_Z (wf_frequency a)).
    + intros a b H. rewrite Zle_Qle. exact H.
    + apply (jsSort_sorted (fun e => inject_Z (wf_frequency e)) byFrequencyDesc
                           byFrequencyDesc_key).
  - intros a b Hb Hf.
    apply before_firstn in Hb.
    apply (jsSort_stable (fun e => inject_Z (wf_frequency e)) byFrequencyDesc
                         byFrequencyDesc_key) in Hb;
      [|rewrite Hf; apply Qle_refl].
    apply before_map_inv in Hb as (e1 & e2 & <- & <- & Hb). simpl.
    apply (before_map fst) in Hb. fold (keys m) in Hb. rewrite Hkeys in Hb.
    apply firstOcc_before in Hb. exact Hb.
  - apply firstn_le_length.
  - apply Forall_forall. intros e He.
    apply In_firstn in He.
    apply jsSort_In in He.
    apply in_map_iff in He as ([k v] & <- & Hin). simpl.
    pose proof (@mapGet_In m k v Hnd Hin) as Hget.
    pose proof (getOrZero_fold_bump ws [] k) as Hcount.
    fold m in Hcount. unfold getOrZero in Hcount at 1. rewrite Hget in Hcount.
    simpl in Hcount.
    assert (Hk : In k ws).
    { apply (in_map fst) in Hin. fold (keys m) in Hin. rewrite Hkeys in Hin.
      apply firstOcc_In in Hin. apply Hin. }
    apply (count_occ_In str_dec) in Hk. unfold getOrZero in Hcount. simpl in Hcount. lia.
Qed.

(** C5.  [analyzeWordFrequency] ranks the tokens of a text: the result is
    sorted by non-increasing frequency; of two words with the same
    frequency the one seen first in the text comes first; at most 120
    entries are kept; every frequency is the number of occurrences of its
    word among the tokens, hence at least 1; and the tokens a b a c b a
    give exactly (a, 3), (b, 2), (c, 1).  Being a function, the analyzer
    returns the same sequence on every run. *)
Theorem analyzeWordFrequency_ranking (text : jsstring) :
  StronglySorted (fun a b => (wf_frequency b <= wf_frequency a)%Z)
                 (analyzeWordFrequency text)
  /\ (forall a b, before a b (analyzeWordFrequency text) ->
                  wf_frequency a = wf_frequency b ->
                  firstSeenBefore (wf_word a) (wf_word b) (tokens text))
  /\ (List.length (analyzeWordFrequency text) <= 120)%nat
  /\ Forall (fun e => (1 <= wf_frequency e)%Z
                      /\ wf_frequency e
                         = Z.of_nat (count_occ str_dec (tokens text) (wf_word e)))
            (analyzeWordFrequency text)
  /\ tokens (lit "a b a c b a") = map lit ["a"; "b"; "a"; "c"; "b"; "a"]%string
  /\ analyzeWordFrequency (lit "a b a c b a")
     = [mkWordFreq (lit "a") 3; mkWordFreq (lit "b") 2; mkWordFreq (lit "c") 1].
Proof.
  unfold analyzeWordFrequency, analyzeWordFrequencyCap.
  destruct ((List.length text =? 0)%nat || (List.length (trim text) =? 0)%nat).
  - split; [constructor|]. split.
    + intros a b (l1 & l2 & l3 & E). destruct l1; discriminate.
    + split; [simpl; lia|]. split; [constructor|].
      split; vm_compute; reflexivity.
  - destruct (rankTokens_spec 120 (tokens_clean text)) as (H1 & H2 & H3 & H4).
    repeat split; try assumption; vm_compute; reflexivity.
Qed.

(* ================================================================== *)
(** ** Empty input *)

Lemma dropWhile_nil (A : Type) (p : A -> bool) (l : list A) :
  dropWhile p l = [] -> Forall (fun c => p c = true) l.
Proof.
  induction l as [|c l IH]; simpl; intro H; [constructor|].
  destruct (p c) eqn:E; [|discriminate].
  constructor; [exact E | apply IH, H].
Qed.

Lemma dropWhile_split (A : Type) (p : A -> bool) (l : list A) :
  exists pre, l = pre ++ dropWhile p l /\ Forall (fun c => p c = true) pre.
Proof.
  induction l as [|c l (pre & E & H)]; simpl.
  - exists []. split; [reflexivity | constructor].
  - destruct (p c) eqn:Ec.
    + exists (c :: pre). simpl. split; [f_equal; exact E | constructor; assumption].
    + exists []. split; [reflexivity | constructor].
Qed.

Lemma trim_nil_blank (s : jsstring) :
  trim s = [] -> Forall (fun c => isWhiteSpace c = true) s.
Proof.
  unfold trim. intro H.
  apply (f_equal (@rev N)) in H. rewrite rev_involutive in H. simpl in H.
  apply dropWhile_nil in H. apply Forall_rev in H. rewrite rev_involutive in H.
  destruct (dropWhile_split isWhiteSpace s) as (pre & E & Hpre).
  rewrite E. apply Forall_app. split; assumption.
Qed.

Lemma splitLoop_blank (s : jsstring) (inRun : bool) :
  Forall (fun c => isWhiteSpace c = true) s ->
  Forall (fun w => w = []) (splitLoop s [] inRun).
Proof.
  intro H. revert inRun. induction H as [|c s Hc _ IH]; simpl; intro inRun.
  - repeat constructor.
  - rewrite Hc. destruct inRun; [apply IH | constructor; [reflexivity | apply IH]].
Qed.

Lemma tokens_blank (text : jsstring) : trim text = [] -> tokens text = [].
Proof.
  intro H. apply trim_nil_blank in H.
  apply (splitLoop_blank false) in H. unfold tokens, split_ws.
  induction H as [|w l Hw _ IH]; simpl; [reflexivity|].
  subst w. simpl. exact IH.
Qed.

Lemma rankTokens_nonempty (cap : nat) (w : jsstring) (ws : list jsstring) :
  Forall clean (w :: ws) -> rankTokens (S cap) (w :: ws) <> [].
Proof.
  intros Hclean Hnil. unfold rankTokens in Hnil.
  rewrite (fold_countWord_clean _ Hclean) in Hnil.
  apply (f_equal (@List.length WordFreq)) in Hnil.
  pose proof (keys_fold_bump (w :: ws) []) as Hk.
  apply (f_equal (@List.length jsstring)) in Hk.
  unfold keys in Hk. rewrite length_map in Hk. simpl in Hk.
  set (m := fold_left bump ws (bump [] w)) in *.
  set (sorted := jsSort byFrequencyDesc (map (fun e => mkWordFreq (fst e) (snd e)) m)) in *.
  assert (Hlen : List.length sorted = List.length m).
  { unfold sorted. rewrite jsSort_length, length_map. reflexivity. }
  simpl fold_left in Hnil. fold m in Hnil. fold sorted in Hnil.
  destruct sorted as [|e sorted']; simpl in *; [lia | discriminate].
Qed.

Lemma analyze_nil_iff (text : jsstring) :
  analyzeWordFrequency text = [] <-> tokens text = [].
Proof.
  unfold analyzeWordFrequency, analyzeWordFrequencyCap. split.
  - destruct ((List.length text =? 0)%nat || (List.length (trim text) =? 0)%nat) eqn:G.
    + intros _. apply orb_true_iff in G as [G | G]; apply Nat.eqb_eq in G.
      * destruct text; [reflexivity | discriminate].
      * apply tokens_blank. destruct (trim text); [reflexivity | discriminate].
    + intro H. pose proof (tokens_clean text) as Hc.
      destruct (tokens text) as [|w ws]; [reflexivity|].
      exfalso. exact (rankTokens_nonempty 119 Hc H).
  - intro H. rewrite H.
    destruct ((List.length text =? 0)%nat || (List.length (trim text) =? 0)%nat);
      reflexivity.
Qed.

Section PipelineFacts.
Context {rt : Runtime}.

Lemma generateAngles_no_throw (fuel : nat) (r : Range.t) (step : Q) (e : Error) :
  generateAngles fuel r step <> Throw e.
Proof.
  unfold generateAngles.
  assert (H : forall fuel a acc,
             generateAnglesLoop fuel (Range.max r) step a acc <> Throw e).
  { clear fuel. induction fuel as [|fuel IH]; simpl; intros a acc; [discriminate|].
    destruct (a <=? Range.max r); [apply IH | discriminate]. }
  specialize (H fuel (Range.min r) []).
  destruct (generateAnglesLoop fuel (Range.max r) step (Range.min r) []);
    simpl; congruence.
Qed.

Lemma calculateAngle_no_throw (fuel calls index : nat) (r : Range.t) (step : Q)
      (e : Error) :
  calculateAngle fuel calls index r step <> Throw e.
Proof.
  unfold calculateAngle. pose proof (@generateAngles_no_throw fuel r step e) as H.
  destruct (generateAngles fuel r step); simpl; try congruence.
  destruct (index <? 5)%nat; [discriminate|].
  destruct (index <? 15)%nat; discriminate.
Qed.

Lemma prepareLoop_no_throw (sizeOf : Q -> Q) (colorOf : nat -> Z -> option jsstring)
      (angleOf : nat -> nat -> Z -> result (option Q * nat)) (e : Error) :
  (forall calls index f, angleOf calls index f <> Throw e) ->
  forall items calls index,
    prepareLoop sizeOf colorOf angleOf calls index items <> Throw e.
Proof.
  intros Hangle. induction items as [|item rest IH]; simpl; intros calls index.
  - discriminate.
  - specialize (Hangle calls index (wf_frequency item)).
    destruct (angleOf calls index (wf_frequency item)) as [[a calls']| | |];
      simpl; try congruence.
    destruct a as [a|]; [|discriminate].
    specialize (IH calls' (S index)).
    destruct (prepareLoop sizeOf colorOf angleOf calls' (S index) rest);
      simpl; congruence.
Qed.

Lemma prepareWordItems_no_throw (fuel : nat) (l : list WordFreq)
      (config : Options.t) (e : Error) :
  prepareWordItems fuel l config <> Throw e.
Proof.
  unfold prepareWordItems. destruct (frequencies l); [discriminate|].
  apply prepareLoop_no_throw. intros. apply calculateAngle_no_throw.
Qed.

(** C6.  A text that is empty, blank or without tokens is analysed to the
    empty sequence (a value, not an error).  [generate] then throws the
    error "no valid words" having entered the analysis stage only, and it
    throws that error exactly when the analysed list is empty: with a
    non-empty list it goes on to the Glyph Box Preparer. *)
Theorem generate_empty_input (fuel : nat) (text : jsstring) (options : Partial.t) :
  analyzeWordFrequency [] = []
  /\ (trim text = [] -> analyzeWordFrequency text = [])
  /\ (analyzeWordFrequency text = [] <-> tokens text = [])
  /\ (analyzeWordFrequency text = [] ->
      generate fuel text options = ([Analyze], Throw (GenerationFailed NoValidWords)))
  /\ (snd (generate fuel text options) = Throw (GenerationFailed NoValidWords)
      <-> analyzeWordFrequency text = [])
  /\ (analyzeWordFrequency text <> [] ->
      exists rest, fst (generate fuel text options) = Analyze :: Prepare :: rest).
Proof.
  split; [reflexivity|].
  split; [intro H; apply analyze_nil_iff, tokens_blank, H|].
  split; [apply analyze_nil_iff|].
  assert (Hempty : analyzeWordFrequency text = [] ->
                   generate fuel text options
                   = ([Analyze], Throw (GenerationFailed NoValidWords))).
  { intro H. unfold generate. rewrite H. reflexivity. }
  split; [exact Hempty|].
  assert (Hnonempty : analyzeWordFrequency text <> [] ->
            (exists rest, fst (generate fuel text options) = Analyze :: Prepare :: rest)
            /\ snd (generate fuel text options) <> Throw (GenerationFailed NoValidWords)).
  { intro H. unfold generate.
    destruct (analyzeWordFrequency text) as [|e l] eqn:E; [contradiction|].
    simpl List.length. simpl Nat.eqb. cbv iota.
    set (config := svgOutputPath (mergeOptions defaultOptions options)).
    pose proof (@prepareWordItems_no_throw fuel (e :: l) config NoValidWords) as Hp.
    destruct (prepareWordItems fuel (e :: l) config) as [items|err| |]; simpl.
    - destruct (saveFile _ _); simpl; split;
        [eexists; reflexivity | discriminate | eexists; reflexivity | discriminate].
    - split; [eexists; reflexivity|]. intro H'. injection H' as H'. congruence.
    - split; [eexists; reflexivity | discriminate].
    - split; [eexists; reflexivity | discriminate]. }
  split; [split|].
  - intro H. destruct (analyzeWordFrequency text) as [|e l] eqn:E; [reflexivity|].
    exfalso. apply Hnonempty; [discriminate | exact H].
  - intro H. rewrite (Hempty H). reflexivity.
  - intro H. apply Hnonempty, H.
Qed.
End PipelineFacts.

(* ================================================================== *)
(** ** Renderer: escaping *)

Lemma flat_map_compose (A B C : Type) (f : A -> list B) (g : B -> list C) (l : list A) :
  flat_map g (flat_map f l) = flat_map (fun a => flat_map g (f a)) l.
Proof.
  induction l as [|a l IH]; simpl; [reflexivity|].
  rewrite flat_map_app, IH. reflexivity.
Qed.

Lemma escape_one (u : N) :
  replaceAll 39 (lit "&#39;")
    (replaceAll 34 (lit "&quot;")
       (replaceAll 62 (lit "&gt;")
          (replaceAll 60 (lit "&lt;")
             (replaceAll 38 (lit "&amp;") [u])))) = escapeUnit u.
Proof.
  unfold escapeUnit.
  destruct (u =? 38)%N eqn:E38; [apply N.eqb_eq in E38; subst; reflexivity|].
  destruct (u =? 60)%N eqn:E60; [apply N.eqb_eq in E60; subst; reflexivity|].
  destruct (u =? 62)%N eqn:E62; [apply N.eqb_eq in E62; subst; reflexivity|].
  destruct (u =? 34)%N eqn:E34; [apply N.eqb_eq in E34; subst; reflexivity|].
  destruct (u =? 39)%N eqn:E39; [apply N.eqb_eq in E39; subst; reflexivity|].
  unfold replaceAll. simpl. rewrite E38. simpl. rewrite E60. simpl.
  rewrite E62. simpl. rewrite E34. simpl. rewrite E39. reflexivity.
Qed.

Lemma flat_map_singleton (A B : Type) (f : A -> list B) (a : A) :
  flat_map f [a] = f a.
Proof. simpl. apply app_nil_r. Qed.

(** The five passes of [escapeXml] amount to one pass that rewrites every
    unit on its own. *)
Lemma escapeXml_unitwise (text : jsstring) :
  escapeXml text = flat_map escapeUnit text.
Proof.
  unfold escapeXml, replaceAll. rewrite !flat_map_compose.
  apply flat_map_ext. intro u.
  rewrite <- escape_one. unfold replaceAll.
  rewrite !flat_map_compose, flat_map_singleton. reflexivity.
Qed.

Lemma wellEscaped_unit (u : N) (rest : jsstring) :
  wellEscaped (escapeUnit u ++ rest) = wellEscaped rest.
Proof.
  unfold escapeUnit.
  destruct (u =? 38)%N eqn:E38; [reflexivity|].
  destruct (u =? 60)%N eqn:E60; [reflexivity|].
  destruct (u =? 62)%N eqn:E62; [reflexivity|].
  destruct (u =? 34)%N eqn:E34; [reflexivity|].
  destruct (u =? 39)%N eqn:E39; [reflexivity|].
  simpl. rewrite E38, E60, E62, E34, E39. reflexivity.
Qed.

Lemma wellEscaped_escape (text : jsstring) : wellEscaped (escapeXml text) = true.
Proof.
  rewrite escapeXml_unitwise.
  induction text as [|u text IH]; [reflexivity|].
  simpl flat_map. rewrite wellEscaped_unit. exact IH.
Qed.

Lemma join_In (sep a : jsstring) (l : list jsstring) :
  In a l -> exists pre post, join sep l = pre ++ a ++ post.
Proof.
  induction l as [|b l IH]; intro H; [contradiction|].
  destruct H as [-> | H].
  - destruct l as [|c l].
    + exists [], []. simpl. rewrite app_nil_r. reflexivity.
    + exists [], (sep ++ join sep (c :: l)). reflexivity.
  - destruct (IH H) as (pre & post & E).
    destruct l as [|c l]; [contradiction|].
    exists (b ++ sep ++ pre), post.
    change (join sep (b :: c :: l)) with (b ++ sep ++ join sep (c :: l)).
    rewrite E, <- !app_assoc. reflexivity.
Qed.

(** C9.  [escapeXml] rewrites each of the five reserved characters to its
    entity reference and leaves every other unit alone; its result holds
    no angle bracket, no quote, and no ampersand that does not open one of
    the five references; the word A&B<C> becomes A&amp;B&lt;C&gt;; the
    text content of the element that [generateSVG] emits for a word is the
    escaped text of that word; and the text of a word enters the document
    nowhere else, the rest of its element being the same for any text. *)
Theorem escapeXml_in_svg {rt : Runtime} (words : list WordItem) (config : Options.t) :
  (forall text, escapeXml text = flat_map escapeUnit text)
  /\ map escapeUnit [38; 60; 62; 34; 39]%N = entities
  /\ (forall text, wellEscaped (escapeXml text) = true)
  /\ escapeXml (lit "A&B<C>") = lit "A&amp;B&lt;C&gt;"
  /\ (forall word, In word words ->
        exists pre post,
          generateSVG words config
          = pre ++ textElementOpen word ++ escapeXml (text word)
                ++ textElementClose ++ post)
  /\ generateSVG words config
     = svgHeader config
       ++ join nl (map (fun w => textElementOpen w ++ escapeXml (text w)
                                   ++ textElementClose) words)
       ++ svgFooter
  /\ (forall word t, textElementOpen (setText word t) = textElementOpen word).
Proof.
  split; [apply escapeXml_unitwise|].
  split; [reflexivity|].
  split; [apply wellEscaped_escape|].
  split; [vm_compute; reflexivity|].
  split; [|split; reflexivity].
  intros word Hin. unfold generateSVG.
  apply (in_map textElement) in Hin.
  destruct (join_In nl _ _ Hin) as (pre & post & E).
  exists (svgHeader config ++ pre), (post ++ svgFooter).
  rewrite E. unfold textElement. rewrite <- !app_assoc. reflexivity.
Qed.

(* ================================================================== *)
(** ** Glyph Box Preparer: the bounding box *)

Lemma ofNat_S (n : nat) : ofNat (S n) == ofNat n + 1.
Proof.
  unfold ofNat. rewrite Nat2Z.inj_succ. unfold Z.succ.
  rewrite inject_Z_plus. reflexivity.
Qed.

Lemma ofNat_nonneg (n : nat) : 0 <= ofNat n.
Proof.
  unfold ofNat. change 0 with (inject_Z 0). rewrite <- Zle_Qle. lia.
Qed.

Lemma fold_width (fontSize acc : Q) (l : list jsstring) :
  fold_left (fun baseWidth char =>
               if isCJK char then baseWidth + fontSize
               else baseWidth + fontSize * 0.6) l acc
  == acc + ofNat (List.length (filter isCJK l)) * fontSize
     + ofNat (List.length (filter (fun c => negb (isCJK c)) l)) * (fontSize * 0.6).
Proof.
  revert acc. induction l as [|c l IH]; intro acc.
  - simpl. unfold ofNat. simpl. change (inject_Z 0) with 0. lra.
  - simpl fold_left. rewrite IH. simpl filter.
    destruct (isCJK c); simpl negb; cbv iota; simpl List.length;
      rewrite ofNat_S; lra.
Qed.

Lemma baseWidthOf_closed (text : jsstring) (fontSize : Q) :
  baseWidthOf text fontSize
  == ofNat (wideCount text) * fontSize + ofNat (narrowCount text) * (fontSize * 0.6).
Proof.
  unfold baseWidthOf, wideCount, narrowCount. rewrite fold_width. lra.
Qed.

Lemma baseWidthOf_nonneg (text : jsstring) (fontSize : Q) :
  0 <= fontSize -> 0 <= baseWidthOf text fontSize.
Proof.
  intro H. rewrite baseWidthOf_closed.
  pose proof (ofNat_nonneg (wideCount text)) as Hw.
  pose proof (ofNat_nonneg (narrowCount text)) as Hn.
  assert (0 <= ofNat (wideCount text) * fontSize) by (apply Qmult_le_0_compat; assumption).
  assert (0 <= ofNat (narrowCount text) * (fontSize * 0.6))
    by (apply Qmult_le_0_compat; [assumption | lra]).
  lra.
Qed.

(** A turned box whose cosine is within [eps] of 0 and whose sine is within
    [eps] of 1 has its sides swapped, up to [eps] times their sum. *)
Lemma quarter_turn_swap (w h c s eps : Q) :
  0 <= w -> 0 <= h -> Qabs c <= eps -> Qabs (s - 1) <= eps ->
  Qabs (Qabs (w * c) + Qabs (h * s) - h) <= eps * (w + h)
  /\ Qabs (Qabs (w * s) + Qabs (h * c) - w) <= eps * (w + h).
Proof.
  intros Hw Hh Hc Hs.
  pose proof (Qabs_nonneg c) as Hc0.
  apply Qabs_Qle_condition in Hs as [Hs1 Hs2].
  assert (Hsa : 1 - eps <= Qabs s) by (pose proof (Qle_Qabs s); lra).
  assert (Hsb : Qabs s <= 1 + eps) by (apply Qabs_Qle_condition; split; lra).
  rewrite !Qabs_Qmult, (Qabs_pos w Hw), (Qabs_pos h Hh).
  set (a := Qabs c) in *. set (b := Qabs s) in *.
  assert (H1 : 0 <= w * a) by (apply Qmult_le_0_compat; assumption).
  assert (H2 : 0 <= w * (eps - a)) by (apply Qmult_le_0_compat; lra).
  assert (H3 : 0 <= h * a) by (apply Qmult_le_0_compat; assumption).
  assert (H4 : 0 <= h * (eps - a)) by (apply Qmult_le_0_compat; lra).
  assert (H5 : 0 <= h * (b - (1 - eps))) by (apply Qmult_le_0_compat; lra).
  assert (H6 : 0 <= h * (1 + eps - b)) by (apply Qmult_le_0_compat; lra).
  assert (H7 : 0 <= w * (b - (1 - eps))) by (apply Qmult_le_0_compat; lra).
  assert (H8 : 0 <= w * (1 + eps - b)) by (apply Qmult_le_0_compat; lra).
  split; apply Qabs_Qle_condition; split; lra.
Qed.

(** C8.  With [baseWidth] the sum of the advances (a full [fontSize] for
    each wide character, 0.6 of it for any other) and [baseHeight] 1.2
    times [fontSize]: at angle 0 the estimate is exactly that box, no
    trigonometric function being consulted; at any other angle it is the
    axis-aligned box of the rectangle turned by |angle| degrees taken in
    radians; and at 90 degrees the two sides are swapped, up to the error
    of the runtime's cosine and sine at the quarter turn. *)
Theorem estimateTextDimensions_box {rt : Runtime} (text : jsstring) (fontSize angle : Q) :
  let baseWidth := baseWidthOf text fontSize in
  let baseHeight := fontSize * 1.2 in
  let radians := (Qabs angle * Math_PI) / 180 in
  let quarter := (Qabs 90 * Math_PI) / 180 in
  baseWidth == ofNat (wideCount text) * fontSize
               + ofNat (narrowCount text) * (fontSize * 0.6)
  /\ (angle == 0 ->
      estimateTextDimensions text fontSize angle = Size.mk baseWidth baseHeight)
  /\ (~ angle == 0 ->
      estimateTextDimensions text fontSize angle
      = Size.mk (Qabs (baseWidth * Math_cos radians) + Qabs (baseHeight * Math_sin radians))
                (Qabs (baseWidth * Math_sin radians) + Qabs (baseHeight * Math_cos radians)))
  /\ (forall eps,
        0 <= fontSize ->
        Qabs (Math_cos quarter) <= eps ->
        Qabs (Math_sin quarter - 1) <= eps ->
        Qabs (Size.width (estimateTextDimensions text fontSize 90) - baseHeight)
        <= eps * (baseWidth + baseHeight)
        /\ Qabs (Size.height (estimateTextDimensions text fontSize 90) - baseWidth)
           <= eps * (baseWidth + baseHeight)).
Proof.
  cbv zeta. split; [apply baseWidthOf_closed|].
  split; [|split].
  - intro H. unfold estimateTextDimensions.
    apply Qeq_bool_iff in H. rewrite H. reflexivity.
  - intro H. unfold estimateTextDimensions.
    destruct (angle =? 0) eqn:E; [apply Qeq_bool_iff in E; contradiction | reflexivity].
  - intros eps Hfs Hc Hs.
    unfold estimateTextDimensions.
    change (90 =? 0) with false. cbv iota. cbn [Size.width Size.height].
    apply quarter_turn_swap; try assumption.
    + apply baseWidthOf_nonneg, Hfs.
    + lra.
Qed.

(* ================================================================== *)
(** ** Glyph Box Preparer: the angle grid *)

Section AngleGrid.
Context {rt : Runtime}.

Lemma generateAnglesLoop_total (angleMax angleStep : Q) :
  0 < angleStep ->
  forall (n : nat) (angle : Q) (acc : list Q),
    angleMax - angle < ofNat n * angleStep ->
    exists angles,
      (forall fuel, (n < fuel)%nat ->
                    generateAnglesLoop fuel angleMax angleStep angle acc = Ok angles)
      /\ (angle <= angleMax -> angles <> [])
      /\ (angleMax < angle -> angles = acc).
Proof.
  intro Hstep. induction n as [|n IH]; intros angle acc Hn.
  - unfold ofNat in Hn. simpl in Hn. change (inject_Z 0) with 0 in Hn.
    exists acc. split; [|split].
    + intros [|fuel] Hf; [lia|]. simpl.
      assert (E : (angle <=? angleMax) = false) by (apply Qleb_gt; lra).
      rewrite E. reflexivity.
    + intro H. lra.
    + reflexivity.
  - rewrite ofNat_S in Hn.
    destruct (angle <=? angleMax) eqn:E.
    + destruct (IH (angle + angleStep) (acc ++ [angle])) as (angles & H1 & H2 & H3);
        [lra|].
      exists angles. split; [|split].
      * intros [|fuel] Hf; [lia|]. simpl. rewrite E. apply H1. lia.
      * intros _. destruct (Qlt_le_dec angleMax (angle + angleStep)) as [Hgt | Hle].
        -- rewrite (H3 Hgt). destruct acc; discriminate.
        -- apply H2, Hle.
      * intro H. apply Qle_bool_iff in E. lra.
    + exists acc. split; [|split].
      * intros [|fuel] Hf; [lia|]. simpl. rewrite E. reflexivity.
      * intro H. apply Qleb_gt in E. lra.
      * reflexivity.
Qed.

Lemma archimedean (d step : Q) : 0 < step -> exists n : nat, d < ofNat n * step.
Proof.
  intro Hstep.
  exists (Z.to_nat (Qfloor (d / step) + 1)).
  assert (Hq : d / step < ofNat (Z.to_nat (Qfloor (d / step) + 1))).
  { eapply Qlt_le_trans; [apply Qlt_floor|].
    unfold ofNat. rewrite <- Zle_Qle. lia. }
  assert (Hd : d == d / step * step) by (field; lra).
  rewrite Hd at 1. apply Qmult_lt_compat_r; assumption.
Qed.

Lemma generateAnglesLoop_diverges (angleMax angleStep : Q) :
  angleStep <= 0 ->
  forall (fuel : nat) (angle : Q) (acc : list Q),
    angle <= angleMax ->
    generateAnglesLoop fuel angleMax angleStep angle acc = OutOfFuel.
Proof.
  intro Hstep. induction fuel as [|fuel IH]; intros angle acc Hle; simpl.
  - reflexivity.
  - assert (E : (angle <=? angleMax) = true) by (apply Qle_bool_iff, Hle).
    rewrite E. apply IH. lra.
Qed.

Lemma jsNth_in_range (l : list Q) (r : Q) :
  l <> [] -> 0 <= r -> r < 1 ->
  exists a, jsNth l (Math_floor (r * ofNat (List.length l))) = Some a.
Proof.
  intros Hl H0 H1. unfold jsNth, Math_floor.
  set (len := List.length l).
  assert (Hlen : 0 < ofNat len).
  { unfold ofNat, len. change 0 with (inject_Z 0). rewrite <- Zlt_Qlt.
    destruct l; [contradiction | simpl; lia]. }
  assert (Hlo : (0 <= Qfloor (r * ofNat len))%Z).
  { change 0%Z with (Qfloor 0). apply Qfloor_resp_le.
    apply Qmult_le_0_compat; lra. }
  assert (Hhi : (Qfloor (r * ofNat len) < Z.of_nat len)%Z).
  { rewrite Zlt_Qlt. eapply Qle_lt_trans; [apply Qfloor_le|].
    fold (ofNat len).
    assert (E : ofNat len == 1 * ofNat len) by ring.
    rewrite E at 2. apply Qmult_lt_compat_r; assumption. }
  destruct (Qfloor (r * ofNat len) <? 0)%Z eqn:E; [apply Z.ltb_lt in E; lia|].
  destruct (nth_error l (Z.to_nat (Qfloor (r * ofNat len)))) as [a|] eqn:En.
  - exists a. reflexivity.
  - apply nth_error_None in En. fold len in En. lia.
Qed.

Lemma calculateAngle_number (fuel calls index : nat) (angleRange : Range.t)
      (angleStep : Q) (angles : list Q) :
  generateAngles fuel angleRange angleStep = Ok angles ->
  angles <> [] ->
  0 <= Math_random calls -> Math_random calls < 1 ->
  exists a, calculateAngle fuel calls index angleRange angleStep
            = Ok (Some a, if (index <? 5)%nat then calls else S calls).
Proof.
  intros Hg Hne H0 H1. unfold calculateAngle. rewrite Hg. cbn [bind].
  destruct (index <? 5)%nat; [exists 0; reflexivity|].
  destruct (index <? 15)%nat; [eexists; reflexivity|].
  destruct (jsNth_in_range Hne H0 H1) as (a & Ha).
  exists a. rewrite Ha. reflexivity.
Qed.

Lemma svgOutputPath_angles (config : Options.t) :
  Options.angleRange (svgOutputPath config) = Options.angleRange config
  /\ Options.angleStep (svgOutputPath config) = Options.angleStep config.
Proof.
  unfold svgOutputPath. destruct (negb _); split; reflexivity.
Qed.

End AngleGrid.

(* ================================================================== *)
(** ** Glyph Box Preparer: font size *)

Section FontSize.
Context {rt : Runtime}.

Lemma calculateFontSize_cap (frequency minFreq maxFreq : Q) (r : Range.t) :
  Range.min r <= Range.max r ->
  calculateFontSize frequency minFreq maxFreq r <= sizeCap r.
Proof.
  intro H. unfold calculateFontSize, sizeCap.
  destruct (maxFreq =? minFreq).
  - apply Qle_shift_div_r; lra.
  - eapply Qle_trans; [apply Q.le_min_r | lra].
Qed.

Lemma prepareLoop_sizes (sizeOf : Q -> Q) (colorOf : nat -> Z -> option jsstring)
      (angleOf : nat -> nat -> Z -> result (option Q * nat)) (cap : Q) :
  (forall f, sizeOf f <= cap) ->
  forall items calls index out,
    prepareLoop sizeOf colorOf angleOf calls index items = Ok out ->
    Forall (fun word => fontSize word <= inject_Z (Math_round cap)
                        /\ fontSize word <= cap + 0.5) out.
Proof.
  intro Hsize. induction items as [|item rest IH]; simpl; intros calls index out H.
  - injection H as <-. constructor.
  - destruct (angleOf calls index (wf_frequency item)) as [[a calls']| | |];
      simpl in H; try discriminate.
    destruct a as [a|]; [|discriminate].
    destruct (prepareLoop sizeOf colorOf angleOf calls' (S index) rest) as [tail| | |] eqn:E;
      simpl in H; try discriminate.
    injection H as <-. constructor; [|eapply IH; exact E].
    simpl. specialize (Hsize (inject_Z (wf_frequency item))). split.
    + rewrite <- Zle_Qle. apply Math_round_mono, Hsize.
    + eapply Qle_trans; [apply Math_round_upper | lra].
Qed.

(** C2, as the code has it.  In the base generator, for a font-size range
    with min < max, [calculateFontSize] never exceeds
    min + 0.8 * (max - min), whatever the frequencies.  The font size kept
    in a glyph box is that value rounded to the nearest integer: it never
    exceeds the rounded cap, and stays within half a unit of the cap. *)
Theorem fontSize_clamped (config : Options.t) (fuel : nat)
        (wordFrequencies : list WordFreq) (items : list WordItem) :
  Range.min (Options.fontSize config) < Range.max (Options.fontSize config) ->
  (forall frequency minFreq maxFreq,
      calculateFontSize frequency minFreq maxFreq (Options.fontSize config)
      <= sizeCap (Options.fontSize config))
  /\ (prepareWordItems fuel wordFrequencies config = Ok items ->
      Forall (fun word =>
                fontSize word <= inject_Z (Math_round (sizeCap (Options.fontSize config)))
                /\ fontSize word <= sizeCap (Options.fontSize config) + 0.5)
             items).
Proof.
  intro Hrange.
  assert (Hcap : forall frequency minFreq maxFreq,
             calculateFontSize frequency minFreq maxFreq (Options.fontSize config)
             <= sizeCap (Options.fontSize config)).
  { intros. apply calculateFontSize_cap. lra. }
  split; [exact Hcap|].
  unfold prepareWordItems. destruct (frequencies wordFrequencies) as [|f fs].
  - intro H. injection H as <-. constructor.
  - apply prepareLoop_sizes. intro f'. apply Hcap.
Qed.
End FontSize.

Lemma fontSize_clamped_witness :
  Forall (fun word => fontSize word <= 56 /\ fontSize word <= 56 + 0.5)
         (match @prepareWordItems Reference.runtime 10
                  (analyzeWordFrequency (lit "a a b")) defaultOptions with
          | Ok items => items
          | _ => []
          end).
Proof.
  destruct (@prepareWordItems Reference.runtime 10
              (analyzeWordFrequency (lit "a a b")) defaultOptions) as [items| | |] eqn:E;
    try constructor.
  assert (H : Range.min (Options.fontSize defaultOptions)
              < Range.max (Options.fontSize defaultOptions)) by reflexivity.
  pose proof (proj2 (@fontSize_clamped Reference.runtime defaultOptions 10
                       (analyzeWordFrequency (lit "a a b")) items H) E) as Hall.
  revert Hall. apply Forall_impl. intros w [H1 H2].
  change (inject_Z (Math_round (sizeCap (Options.fontSize defaultOptions)))) with 56 in H1.
  assert (Hc : sizeCap (Options.fontSize defaultOptions) == 56) by reflexivity.
  rewrite Hc in H2. split; assumption.
Defined.

(** C2, as stated, fails.  With the range 10..12 the cap is 11.6, and the
    base generator gives the most frequent word of "a a b" the font size
    12; in the other two generators, whose [calculateFontSize] has no
    clamp, the most frequent word gets the maximum of the range (80 of
    12..80, above the cap 66.4). *)
Lemma fontSize_cap_exceeded :
  fontSizes (@prepareWordItems Reference.runtime 10
               (analyzeWordFrequency (lit "a a b")) narrowRange) = [12; 10]
  /\ sizeCap (Options.fontSize narrowRange) < 12
  /\ @MultiFormat.calculateFontSize Reference.runtime 2 1 2 (Range.mk 12 80) == 80
  /\ @Advanced.calculateAdvancedFontSize Reference.runtime 2 1 2 (Range.mk 12 80) == 80
  /\ sizeCap (Range.mk 12 80) < 80.
Proof.
  repeat split; vm_compute; reflexivity.
Qed.

(* ================================================================== *)
(** ** Glyph Box Preparer: colour *)

Lemma nth_error_firstn_In (A : Type) (l : list A) (j k : nat) (c : A) :
  nth_error l j = Some c -> (j < k)%nat -> In c (firstn k l).
Proof.
  revert j k. induction l as [|a l IH]; intros j k H Hlt.
  - destruct j; discriminate.
  - destruct k as [|k]; [lia|]. destruct j as [|j]; simpl in *.
    + injection H as ->. left. reflexivity.
    + right. apply (IH j k); [exact H | lia].
Qed.

Lemma nth_error_mod (A : Type) (l : list A) (i m : nat) :
  (0 < m <= List.length l)%nat -> exists c, nth_error l (i mod m) = Some c.
Proof.
  intros [H0 Hm].
  destruct (nth_error l (i mod m)) as [c|] eqn:E; [exists c; reflexivity|].
  apply nth_error_None in E.
  pose proof (Nat.mod_upper_bound i m). lia.
Qed.

Lemma ratio_gt (f m c : Q) : 0 < m -> (f / m >? c) = true <-> c * m < f.
Proof.
  intro Hm. rewrite Qgtb_gt. split; intro H.
  - assert (E : f == f / m * m) by (field; lra).
    rewrite E. apply Qmult_lt_compat_r; assumption.
  - apply Qlt_shift_div_l; assumption.
Qed.

Lemma ratio_le (f m c : Q) : 0 < m -> (f / m >? c) = false <-> f <= c * m.
Proof.
  intro Hm. rewrite Qgtb_le. split; intro H.
  - assert (E : f == f / m * m) by (field; lra).
    rewrite E. apply Qmult_le_compat_r; lra.
  - apply Qle_shift_div_r; assumption.
Qed.

(** C7, as the code has it.  The colour of a word is a function of the
    palette, the rank, the frequency and the largest frequency, and the
    buckets go by frequency ratio: above 0.8 the rank indexes the first
    five entries cyclically, above 0.5 the first ten, otherwise the whole
    palette.  Whatever the bucket, the colour is an entry of the palette,
    and each of the five top-ranked words gets the entry at its own rank,
    one of the first five. *)
Theorem selectColorInternal_buckets (colors : list jsstring) (index : nat)
        (frequency maxFreq : Q) :
  colors <> [] -> 0 < maxFreq ->
  exists c,
    selectColorInternal colors index frequency maxFreq = Some c
    /\ In c colors
    /\ (0.8 * maxFreq < frequency ->
        nth_error colors (index mod Nat.min 5 (List.length colors)) = Some c
        /\ In c (firstn 5 colors))
    /\ (0.5 * maxFreq < frequency -> frequency <= 0.8 * maxFreq ->
        nth_error colors (index mod Nat.min 10 (List.length colors)) = Some c
        /\ In c (firstn 10 colors))
    /\ (frequency <= 0.5 * maxFreq ->
        nth_error colors (index mod List.length colors) = Some c)
    /\ ((index < 5)%nat -> (5 <= List.length colors)%nat ->
        nth_error colors index = Some c /\ In c (firstn 5 colors)).
Proof.
  intros Hne Hmax.
  assert (Hlen : (0 < List.length colors)%nat) by (destruct colors; [contradiction | simpl; lia]).
  destruct (@nth_error_mod _ colors index (Nat.min 5 (List.length colors))) as (c5 & H5); [lia|].
  destruct (@nth_error_mod _ colors index (Nat.min 10 (List.length colors))) as (c10 & H10); [lia|].
  destruct (@nth_error_mod _ colors index (List.length colors)) as (cn & Hn); [lia|].
  assert (Hin5 : In c5 (firstn 5 colors)).
  { apply (@nth_error_firstn_In _ colors _ 5 c5 H5).
    pose proof (Nat.mod_upper_bound index (Nat.min 5 (List.length colors))). lia. }
  assert (Hin10 : In c10 (firstn 10 colors)).
  { apply (@nth_error_firstn_In _ colors _ 10 c10 H10).
    pose proof (Nat.mod_upper_bound index (Nat.min 10 (List.length colors))). lia. }
  assert (Hsmall : (index < 5)%nat -> (5 <= List.length colors)%nat ->
                   index mod Nat.min 5 (List.length colors) = index
                   /\ index mod Nat.min 10 (List.length colors) = index
                   /\ index mod List.length colors = index).
  { intros Hi Hl. repeat split; apply Nat.mod_small; lia. }
  unfold selectColorInternal.
  destruct (frequency / maxFreq >? 0.8) eqn:E8.
  - apply ratio_gt in E8; [|exact Hmax].
    exists c5. split; [exact H5|]. split; [eapply In_firstn, Hin5|].
    split; [intros _; split; assumption|].
    split; [intros _ H; lra|].
    split; [intro H; lra|].
    intros Hi Hl. destruct (Hsmall Hi Hl) as (E & _ & _).
    rewrite <- E at 1. split; assumption.
  - apply ratio_le in E8; [|exact Hmax].
    destruct (frequency / maxFreq >? 0.5) eqn:E5.
    + apply ratio_gt in E5; [|exact Hmax].
      exists c10. split; [exact H10|]. split; [eapply In_firstn, Hin10|].
      split; [intro H; lra|].
      split; [intros _ _; split; assumption|].
      split; [intro H; lra|].
      intros Hi Hl. destruct (Hsmall Hi Hl) as (E & E' & _).
      rewrite E' in H10. split; [exact H10|].
      apply (@nth_error_firstn_In _ colors _ 5 c10 H10 Hi).
    + apply ratio_le in E5; [|exact Hmax].
      exists cn. split; [exact Hn|]. split; [eapply nth_error_In, Hn|].
      split; [intro H; lra|].
      split; [intros H _; lra|].
      split; [intros _; exact Hn|].
      intros Hi Hl. destruct (Hsmall Hi Hl) as (E & _ & E'').
      rewrite E'' in Hn. split; [exact Hn|].
      apply (@nth_error_firstn_In _ colors _ 5 cn Hn Hi).
Qed.

Lemma selectColorInternal_buckets_witness :
  exists c,
    selectColorInternal theme_default 7 5 5 = Some c
    /\ In c theme_default
    /\ (0.8 * 5 < 5 ->
        nth_error theme_default (7 mod Nat.min 5 (List.length theme_default)) = Some c
        /\ In c (firstn 5 theme_default))
    /\ (0.5 * 5 < 5 -> 5 <= 0.8 * 5 ->
        nth_error theme_default (7 mod Nat.min 10 (List.length theme_default)) = Some c
        /\ In c (firstn 10 theme_default))
    /\ (5 <= 0.5 * 5 ->
        nth_error theme_default (7 mod List.length theme_default) = Some c)
    /\ ((7 < 5)%nat -> (5 <= List.length theme_default)%nat ->
        nth_error theme_default 7 = Some c /\ In c (firstn 5 theme_default)).
Proof.
  apply (@selectColorInternal_buckets theme_default 7 5 5).
  - discriminate.
  - reflexivity.
Defined.

(** C7, as stated, fails.  In the default palette of twenty colours the
    word of rank 12 whose frequency is half the largest gets the entry 12,
    which is none of the first ten, where the rule by rank buckets gives
    the entry 2; the base generator colours the last of thirteen words so. *)
Lemma selectColor_not_by_rank :
  selectColorInternal theme_default 12 1 2 = Some (lit "#673AB7")
  /\ spec_selectColor theme_default 12 1 2 = Some (lit "#4CAF50")
  /\ existsb (str_eqb (lit "#673AB7")) (firstn 10 theme_default) = false
  /\ colorAt 12 (@prepareWordItems Reference.runtime 10
                   (analyzeWordFrequency thirteenWords) defaultOptions)
     = Some (lit "#673AB7").
Proof.
  repeat split; vm_compute; reflexivity.
Qed.

(** The multi-format generator calls its [selectColor] with the number of
    words in the place of the frequency and the frequency in the place of
    the largest frequency: a word of rank 7 and frequency 11 among eight
    words of that frequency is coloured from the whole palette (entry 7),
    not from the first five (entry 2). *)
Example MultiFormat_color_call :
  colorAt 7 (@MultiFormat.prepareWordItems Reference.runtime 10
               (map (fun w => mkWordFreq (lit w) 11)
                    ["a"; "b"; "c"; "d"; "e"; "f"; "g"; "h"]%string)
               defaultOptions)
  = nth_error MultiFormat.theme_default 7
  /\ @MultiFormat.selectColor MultiFormat.theme_default 7 11 11
     = nth_error MultiFormat.theme_default 2.
Proof.
  split; vm_compute; reflexivity.
Qed.

(* ================================================================== *)
(** ** Spatial Packer: the search *)

Lemma Qmax_cases (a b : Q) :
  (b <= a /\ Qmax a b == a) \/ (a <= b /\ Qmax a b == b).
Proof.
  destruct (Q.max_spec a b) as [[H E] | [H E]]; [right | left]; split;
    try assumption; lra.
Qed.

Lemma Qmin_cases (a b : Q) :
  (a <= b /\ Qmin a b == a) \/ (b <= a /\ Qmin a b == b).
Proof.
  destruct (Q.min_spec a b) as [[H E] | [H E]]; [left | right]; split;
    try assumption; lra.
Qed.

Lemma existsb_false_Forall (A : Type) (f : A -> bool) (l : list A) :
  existsb f l = false -> Forall (fun a => f a = false) l.
Proof.
  induction l as [|a l IH]; simpl; intro H; [constructor|].
  apply orb_false_iff in H as [Ha Hl]. constructor; [exact Ha | apply IH, Hl].
Qed.

Section Search.
Context {rt : Runtime}.
Variable word : WordItem.
Variables centerX centerY : Q.
Variable occupiedAreas : list Rect.t.
Variable config : Options.t.

Lemma tryPosition_accepted (radius : Q) (numAngles i : nat) (p : Q * Q) :
  tryPosition word centerX centerY occupiedAreas config radius numAngles i = Some p ->
  accepted word occupiedAreas config p.
Proof.
  unfold tryPosition.
  set (angle := ofNat i * 2 * Math_PI / ofNat numAngles).
  set (x0 := centerX + radius * Math_cos angle * (1 + Math_sin angle * 0.1)
             - width word / 2).
  set (y0 := centerY + radius * Math_sin angle * (1 + Math_cos angle * 0.1)
             - height word / 2).
  destruct ((x0 <? 10) || (y0 <? 10)
            || (x0 + width word >? Options.width config - 10)
            || (y0 + height word >? Options.height config - 10)) eqn:Em;
    [discriminate|].
  destruct (existsb _ occupiedAreas) eqn:Eo; [discriminate|].
  intro H. injection H as <-. simpl negb in *.
  apply orb_false_iff in Em as [Em E4]. apply orb_false_iff in Em as [Em E3].
  apply orb_false_iff in Em as [E1 E2].
  apply Qltb_ge in E1, E2. apply Qgtb_le in E3, E4.
  unfold accepted. simpl fst. simpl snd. repeat split; try assumption.
  apply existsb_false_Forall in Eo. revert Eo. apply Forall_impl.
  intros area Ha. apply isOverlapping_false, Ha.
Qed.

Lemma angleLoop_accepted (radius : Q) (numAngles todo i : nat) (p : Q * Q) :
  angleLoop word centerX centerY occupiedAreas config radius numAngles todo i = Some p ->
  accepted word occupiedAreas config p.
Proof.
  revert i. induction todo as [|todo IH]; simpl; intros i H; [discriminate|].
  destruct (tryPosition word centerX centerY occupiedAreas config radius numAngles i)
    as [q|] eqn:E.
  - injection H as <-. apply (tryPosition_accepted _ _ _ E).
  - apply (IH _ H).
Qed.

Lemma radiusLoop_accepted (fuel : nat) (radius : Q) (p : Q * Q) :
  radiusLoop word centerX centerY occupiedAreas config fuel radius = Some (Some p) ->
  accepted word occupiedAreas config p.
Proof.
  revert radius. induction fuel as [|fuel IH]; simpl; intros radius H; [discriminate|].
  destruct (radius <? maxRadius word config); [|discriminate].
  destruct (angleLoop word centerX centerY occupiedAreas config radius
                      (numAnglesAt radius) (numAnglesAt radius) 0) as [q|] eqn:E.
  - injection H as <-. apply (angleLoop_accepted _ _ _ _ E).
  - apply (IH _ H).
Qed.

Lemma findPosition_accepted (p : Q * Q) :
  findPositionOrderedSpiral word centerX centerY occupiedAreas config = Some p ->
  accepted word occupiedAreas config p.
Proof.
  unfold findPositionOrderedSpiral.
  destruct (radiusLoop word centerX centerY occupiedAreas config
                       (spiralFuel word config) (startRadius word)) as [[q|]|] eqn:E;
    try discriminate.
  intro H. injection H as <-. apply (radiusLoop_accepted _ _ E).
Qed.

Lemma radiusStep_pos : 0 < radiusStep word.
Proof.
  unfold radiusStep. pose proof (Q.le_max_l 2 (fontSize word / 8)). lra.
Qed.

(** The outer loop ends: once [n] steps cover the distance to
    [maxRadius], every larger number of iterations gives the same answer. *)
Lemma radiusLoop_total (n : nat) :
  forall radius,
    maxRadius word config - radius <= ofNat n * radiusStep word ->
    exists answer,
      forall fuel, (n < fuel)%nat ->
        radiusLoop word centerX centerY occupiedAreas config fuel radius = Some answer.
Proof.
  pose proof radiusStep_pos as Hstep.
  induction n as [|n IH]; intros radius Hn.
  - unfold ofNat in Hn. simpl in Hn. change (inject_Z 0) with 0 in Hn.
    exists None. intros [|fuel] Hf; [lia|]. simpl.
    assert (E : (radius <? maxRadius word config) = false) by (apply Qltb_ge; lra).
    rewrite E. reflexivity.
  - rewrite ofNat_S in Hn.
    destruct (radius <? maxRadius word config) eqn:E.
    + destruct (angleLoop word centerX centerY occupiedAreas config radius
                          (numAnglesAt radius) (numAnglesAt radius) 0) as [q|] eqn:Ea.
      * exists (Some q). intros [|fuel] Hf; [lia|]. simpl. rewrite E, Ea. reflexivity.
      * destruct (IH (radius + radiusStep word)) as (answer & Ha); [lra|].
        exists answer. intros [|fuel] Hf; [lia|]. simpl. rewrite E, Ea.
        apply Ha. lia.
    + exists None. intros [|fuel] Hf; [lia|]. simpl. rewrite E. reflexivity.
Qed.

Lemma spiralFuel_covers :
  maxRadius word config - startRadius word
  <= ofNat (Z.to_nat (Qceiling ((maxRadius word config - startRadius word)
                                / radiusStep word))) * radiusStep word.
Proof.
  pose proof radiusStep_pos as Hstep.
  set (d := maxRadius word config - startRadius word).
  assert (Hq : d / radiusStep word <= ofNat (Z.to_nat (Qceiling (d / radiusStep word)))).
  { eapply Qle_trans; [apply Qle_ceiling|].
    unfold ofNat. rewrite <- Zle_Qle. lia. }
  assert (Hd : d == d / radiusStep word * radiusStep word) by (field; lra).
  rewrite Hd at 1. apply Qmult_le_compat_r; lra.
Qed.

(** The iterations that [findPositionOrderedSpiral] allows itself are
    enough: the search never stops for want of them, and more would not
    change its answer. *)
Lemma radiusLoop_enough :
  forall fuel, (spiralFuel word config <= fuel)%nat ->
    radiusLoop word centerX centerY occupiedAreas config fuel (startRadius word)
    = Some (findPositionOrderedSpiral word centerX centerY occupiedAreas config).
Proof.
  destruct (radiusLoop_total spiralFuel_covers) as (answer & Ha).
  intros fuel Hf. unfold findPositionOrderedSpiral.
  rewrite (Ha (spiralFuel word config)) by (unfold spiralFuel; lia).
  apply Ha. unfold spiralFuel in Hf. lia.
Qed.
End Search.

(* ================================================================== *)
(** ** Spatial Packer: the layout *)

Section Layout.
Context {rt : Runtime}.
Variable config : Options.t.

Lemma clamp_range (g lim v : Q) :
  g <= lim -> g <= Qmax g (Qmin lim v) /\ Qmax g (Qmin lim v) <= lim.
Proof.
  intro H.
  destruct (Qmax_cases g (Qmin lim v)) as [[H1 E1] | [H1 E1]];
    destruct (Qmin_cases lim v) as [[H2 E2] | [H2 E2]]; split; lra.
Qed.

Lemma clamp_inside (g lim v : Q) :
  g <= v -> v <= lim -> Qmax g (Qmin lim v) == v.
Proof.
  intros H1 H2.
  destruct (Qmax_cases g (Qmin lim v)) as [[H3 E1] | [H3 E1]];
    destruct (Qmin_cases lim v) as [[H4 E2] | [H4 E2]]; lra.
Qed.

Lemma clamp_fits (word : WordItem) (x0 y0 : Q) :
  fitsCanvas config word ->
  withinMargin config (Options.wordGap config)
               (setPosition word (clampX config word x0) (clampY config word y0)).
Proof.
  intros [Hw Hh]. unfold withinMargin, clampX, clampY.
  cbn [x y width height setPosition].
  destruct (@clamp_range (Options.wordGap config)
              (Options.width config - width word - Options.wordGap config) x0); [lra|].
  destruct (@clamp_range (Options.wordGap config)
              (Options.height config - height word - Options.wordGap config) y0); [lra|].
  split; [|split; [|split]]; lra.
Qed.

Lemma clamp_accepted (word : WordItem) (x0 y0 : Q) :
  Options.wordGap config <= 10 ->
  10 <= x0 -> 10 <= y0 ->
  x0 + width word <= Options.width config - 10 ->
  y0 + height word <= Options.height config - 10 ->
  clampX config word x0 == x0 /\ clampY config word y0 == y0.
Proof.
  intros Hg H1 H2 H3 H4. unfold clampX, clampY.
  split; apply clamp_inside; lra.
Qed.

Lemma clamp_center (word : WordItem) :
  fitsCanvas config word ->
  clampX config word (Options.width config / 2 - width word / 2)
  == Options.width config / 2 - width word / 2
  /\ clampY config word (Options.height config / 2 - height word / 2)
     == Options.height config / 2 - height word / 2.
Proof.
  intros [Hw Hh]. unfold clampX, clampY.
  split; apply clamp_inside; unfold Qdiv; change (/ 2) with (1 # 2); lra.
Qed.

Lemma good_step (centerX centerY : Q) (i : nat) (word : WordItem)
      (placed : list WordItem) (x0 y0 : Q) :
  (i = 0%nat -> placed = []) ->
  good config placed ->
  (if (i =? 0)%nat
   then Some (centerX - width word / 2, centerY - height word / 2)
   else findPositionOrderedSpiral word centerX centerY
                                  (map (recordedArea config) placed) config)
  = Some (x0, y0) ->
  good config (placed ++ [setPosition word (clampX config word x0) (clampY config word y0)]).
Proof.
  intros Hi [G1 G2] E. split.
  - apply Forall_app. split; [exact G1|].
    constructor; [|constructor]. intro Hfit. apply clamp_fits. exact Hfit.
  - intros Hgap a b Hb.
    apply before_snoc_inv in Hb as [Hb | [Ha ->]]; [apply (G2 Hgap _ _ Hb)|].
    destruct i as [|i]; [rewrite (Hi eq_refl) in Ha; contradiction|].
    simpl in E. apply findPosition_accepted in E.
    destruct E as (H1 & H2 & H3 & H4 & Hall). simpl fst in *. simpl snd in *.
    rewrite Forall_forall in Hall.
    specialize (Hall _ (in_map (recordedArea config) _ _ Ha)).
    destruct (clamp_accepted word Hgap H1 H2 H3 H4) as [Ex Ey].
    set (r := recordedArea config a) in *.
    split.
    + unfold withinMargin. cbn [x y width height setPosition].
      split; [|split; [|split]]; lra.
    + unfold searchedArea.
      change (searchGap (setPosition word (clampX config word x0) (clampY config word y0)) config)
        with (searchGap word config).
      set (g := searchGap word config) in *.
      unfold apart, paddedArea in *.
      cbn [x y width height setPosition Rect.x Rect.y Rect.width Rect.height] in *.
      destruct Hall as [H | [H | [H | H]]];
        [left | right; left | right; right; left | right; right; right]; lra.
Qed.

Lemma layoutLoop_good (centerX centerY : Q) (sortedWords : list WordItem) :
  forall (i : nat) (occupiedAreas : list Rect.t) (placed : list WordItem),
    occupiedAreas = map (recordedArea config) placed ->
    (i = 0%nat -> placed = []) ->
    good config placed ->
    good config (layoutLoop config centerX centerY i sortedWords occupiedAreas placed).
Proof.
  induction sortedWords as [|word rest IH]; intros i occ placed Hocc Hi Hgood.
  - exact Hgood.
  - simpl. subst occ.
    destruct (if (i =? 0)%nat
              then Some (centerX - width word / 2, centerY - height word / 2)
              else findPositionOrderedSpiral word centerX centerY
                                             (map (recordedArea config) placed) config)
      as [[x0 y0]|] eqn:E.
    + apply IH.
      * rewrite map_app. reflexivity.
      * intro H. discriminate.
      * eapply good_step; [exact Hi | exact Hgood | exact E].
    + apply IH; [reflexivity | intro H; discriminate | exact Hgood].
Qed.

Lemma layoutLoop_prefix (centerX centerY : Q) (sortedWords : list WordItem) :
  forall (i : nat) (occupiedAreas : list Rect.t) (placed : list WordItem),
  exists more,
    layoutLoop config centerX centerY i sortedWords occupiedAreas placed
    = placed ++ more.
Proof.
  induction sortedWords as [|word rest IH]; intros i occ placed; simpl.
  - exists []. rewrite app_nil_r. reflexivity.
  - destruct (if (i =? 0)%nat then _ else _) as [[x0 y0]|].
    + destruct (IH (S i) (occ ++ [recordedArea config
                (setPosition word (clampX config word x0) (clampY config word y0))])
                (placed ++ [setPosition word (clampX config word x0)
                                        (clampY config word y0)]))
        as (more & E).
      rewrite E, <- app_assoc. eexists. reflexivity.
    + apply IH.
Qed.

Lemma smartLayoutWords_good (wordItems : list WordItem) :
  good config (smartLayoutWords wordItems config).
Proof.
  unfold smartLayoutWords. apply layoutLoop_good.
  - reflexivity.
  - reflexivity.
  - split; [constructor|].
    intros _ a b (l1 & l2 & l3 & E). destruct l1; discriminate.
Qed.
End Layout.

(* ================================================================== *)
(** ** Spatial Packer: bounds, separation, first placement *)

(** C3, as the code has it.  Every placed word whose box fits the canvas
    with [wordGap] to spare on each side lies within the margin [wordGap]
    of the canvas; and when [wordGap] is at most 10, every placed word
    but the first lies within the margin 10 of the search (hence within
    [wordGap] too). *)
Theorem placed_within_bounds {rt : Runtime} (wordItems : list WordItem)
        (config : Options.t) :
  Forall (fun w => fitsCanvas config w ->
                   withinMargin config (Options.wordGap config) w)
         (smartLayoutWords wordItems config)
  /\ (Options.wordGap config <= 10 ->
      Forall (fun w => withinMargin config 10 w
                       /\ withinMargin config (Options.wordGap config) w)
             (tl (smartLayoutWords wordItems config))).
Proof.
  destruct (smartLayoutWords_good config wordItems) as [G1 G2].
  split; [exact G1|].
  intro Hgap. destruct (smartLayoutWords wordItems config) as [|a out]; [constructor|].
  simpl tl. apply Forall_forall. intros b Hb.
  destruct (G2 Hgap a b (@before_head _ a b out Hb)) as [(H1 & H2 & H3 & H4) _].
  split; unfold withinMargin; (split; [|split; [|split]]); lra.
Qed.

(** C3, as stated, fails.  A text that is one word of 33 letters is sized
    41 and estimated 811.8 wide on the default canvas of width 800: it is
    placed at x = 3 and reaches x = 814.8, beyond the canvas. *)
Lemma first_word_overflows :
  map (fun w => (Qred (x w), Qred (x w + width w)))
      (@layoutOf Reference.runtime 10 longWord defaultOptions)
  = [(3, 4074 # 5)]
  /\ Options.width defaultOptions < 4074 # 5.
Proof.
  split; vm_compute; reflexivity.
Qed.



(** C1, as the code has it.  With [wordGap] at most 10, for any two placed
    words of which [a] was placed before [b]: the box of [b] padded by the
    gap of the search, max(wordGap, fontSize / 12), is apart from the
    region recorded for [a], which is padded by max(wordGap, fontSize / 10).
    Hence the two boxes themselves are apart when [wordGap] is not
    negative, and the two recorded regions are apart when the font size
    of [b] is at most ten times [wordGap], both paddings of [b] being
    [wordGap] then. *)
Theorem placed_words_apart {rt : Runtime} (wordItems : list WordItem)
        (config : Options.t) (a b : WordItem) :
  Options.wordGap config <= 10 ->
  before a b (smartLayoutWords wordItems config) ->
  apart (searchedArea config b) (recordedArea config a)
  /\ (0 <= Options.wordGap config -> apart (boxOf b) (boxOf a))
  /\ (0 <= fontSize b -> fontSize b <= 10 * Options.wordGap config ->
      apart (recordedArea config b) (recordedArea config a)).
Proof.
  intros Hgap Hb.
  destruct (smartLayoutWords_good config wordItems) as [_ G2].
  destruct (G2 Hgap a b Hb) as [_ Hapart].
  split; [exact Hapart|].
  pose proof (Q.le_max_l (Options.wordGap config) (fontSize b / 12)) as Hsb.
  pose proof (Q.le_max_l (Options.wordGap config) (fontSize a / 10)) as Hra.
  unfold apart, searchedArea, recordedArea, recordGap, searchGap, boxOf, paddedArea in *.
  cbn [Rect.x Rect.y Rect.width Rect.height] in *.
  set (gb := Qmax (Options.wordGap config) (fontSize b / 12)) in *.
  set (ga := Qmax (Options.wordGap config) (fontSize a / 10)) in *.
  split.
  - intro H0.
    destruct Hapart as [H | [H | [H | H]]];
      [left | right; left | right; right; left | right; right; right]; lra.
  - intros Hfs Hsmall.
    assert (E12 : gb == Options.wordGap config).
    { unfold gb. apply Q.max_l. apply Qle_shift_div_r; lra. }
    assert (E10 : Qmax (Options.wordGap config) (fontSize b / 10)
                  == Options.wordGap config).
    { apply Q.max_l. apply Qle_shift_div_r; lra. }
    destruct Hapart as [H | [H | [H | H]]];
      [left | right; left | right; right; left | right; right; right]; lra.
Qed.

Lemma placed_words_apart_witness :
  apart (searchedArea overlapOptions (nth 1 overlapLayout nowhere))
        (recordedArea overlapOptions (nth 0 overlapLayout nowhere))
  /\ (0 <= Options.wordGap overlapOptions ->
      apart (boxOf (nth 1 overlapLayout nowhere)) (boxOf (nth 0 overlapLayout nowhere)))
  /\ (0 <= fontSize (nth 1 overlapLayout nowhere) ->
      fontSize (nth 1 overlapLayout nowhere) <= 10 * Options.wordGap overlapOptions ->
      apart (recordedArea overlapOptions (nth 1 overlapLayout nowhere))
            (recordedArea overlapOptions (nth 0 overlapLayout nowhere))).
Proof.
  apply (@placed_words_apart Reference.runtime
           (@preparedOf Reference.runtime 10 (lit "a a b") overlapOptions)).
  - apply Qle_bool_iff. reflexivity.
  - exists [], [], []. vm_compute. reflexivity.
Defined.

(** C1, as stated, fails.  With wordGap 2 and the font-size range 25..26
    the text "a a b" gives two placed words whose recorded regions share
    the strip from x = 410 to x = 410.34: the second word was accepted
    with a padding of 25/12, and its region is recorded with 25/10. *)
Lemma recorded_regions_intersect :
  map (fun w => normRect (recordedArea overlapOptions w))
      (@layoutOf Reference.runtime 10 (lit "a a b") overlapOptions)
  = [Rect.mk (19483 # 50) (7048 # 25) (517 # 25) (904 # 25);
     Rect.mk 410 (565 # 2) 20 35]
  /\ intersecting (Rect.mk (19483 # 50) (7048 # 25) (517 # 25) (904 # 25))
                  (Rect.mk 410 (565 # 2) 20 35)
  /\ isOverlapping (Rect.mk (19483 # 50) (7048 # 25) (517 # 25) (904 # 25))
                   (Rect.mk 410 (565 # 2) 20 35) = true.
Proof.
  split; [vm_compute; reflexivity|].
  split; [|vm_compute; reflexivity].
  apply isOverlapping_true. vm_compute. reflexivity.
Qed.

(** Why the bound on [wordGap]: above 10 the final clamp moves a word away
    from the position that the search accepted.  In the reference runtime,
    with wordGap 17 on a canvas of 200 by 200, the fourth word placed for
    the text below is pushed left to x = 163.8 and its searched area then
    meets the region recorded for the first word. *)
Example clamp_moves_accepted_word :
  match @layoutOf Reference.runtime 10 (lit "aaaa aaaa bb bb cc dd ee") wideGapOptions with
  | a :: _ :: _ :: d :: _ =>
      isOverlapping (searchedArea wideGapOptions d) (recordedArea wideGapOptions a)
      && (x d =? 163.8)
  | _ => false
  end = true.
Proof. vm_compute. reflexivity. Qed.

(* ================================================================== *)
(** ** The statements at concrete inputs *)

Lemma placed_within_bounds_witness :
  Forall (withinMargin defaultOptions 3)
         (@smartLayoutWords Reference.runtime
            (@preparedOf Reference.runtime 10 (lit "a a b") defaultOptions)
            defaultOptions)
  /\ Forall (fun w => withinMargin defaultOptions 10 w /\ withinMargin defaultOptions 3 w)
            (tl (@smartLayoutWords Reference.runtime
                   (@preparedOf Reference.runtime 10 (lit "a a b") defaultOptions)
                   defaultOptions)).
Proof.
  destruct (@placed_within_bounds Reference.runtime
              (@preparedOf Reference.runtime 10 (lit "a a b") defaultOptions)
              defaultOptions) as [H1 H2].
  split.
  - rewrite Forall_forall in *. intros w Hw. apply (H1 w Hw).
    change (In w sampleLayout) in Hw.
    destruct Hw as [<- | [<- | []]]; split; apply Qle_bool_iff; vm_compute; reflexivity.
  - apply H2. apply Qle_bool_iff. reflexivity.
Defined.

Lemma generate_empty_input_witness :
  @generate Reference.runtime 0 (lit "   ") Partial.empty
  = ([Analyze], Throw (GenerationFailed NoValidWords)).
Proof.
  destruct (@generate_empty_input Reference.runtime 0 (lit "   ") Partial.empty)
    as (_ & Hblank & _ & Hthrow & _).
  apply Hthrow, Hblank. reflexivity.
Defined.

Lemma estimateTextDimensions_box_witness :
  Qabs (Size.width (@estimateTextDimensions Reference.runtime (lit "ab") 20 90)
        - 20 * 1.2)
  <= (1 # 1000) * (@baseWidthOf (lit "ab") 20 + 20 * 1.2)
  /\ Qabs (Size.height (@estimateTextDimensions Reference.runtime (lit "ab") 20 90)
           - @baseWidthOf (lit "ab") 20)
     <= (1 # 1000) * (@baseWidthOf (lit "ab") 20 + 20 * 1.2).
Proof.
  apply (proj2 (proj2 (proj2
           (@estimateTextDimensions_box Reference.runtime (lit "ab") 20 90))) (1 # 1000));
    apply Qle_bool_iff; vm_compute; reflexivity.
Defined.


Example generateAngles_default :
  generateAngles 8 (Range.mk (-45) 45) 15 = Ok [-45; -45 + 15; -45 + 15 + 15;
    -45 + 15 + 15 + 15; -45 + 15 + 15 + 15 + 15; -45 + 15 + 15 + 15 + 15 + 15;
    -45 + 15 + 15 + 15 + 15 + 15 + 15]
  /\ generateAngles 7 (Range.mk (-45) 45) 15 = OutOfFuel
  /\ generateAngles 1 (Range.mk 45 (-45)) 15 = Ok [0]
  /\ generateAngles 1000 (Range.mk (-45) 45) 0 = OutOfFuel.
Proof.
  repeat split; vm_compute; reflexivity.
Qed.

Example wellEscaped_rejects :
  wellEscaped (lit "A&B") = false
  /\ wellEscaped (lit "B<C") = false
  /\ wellEscaped (lit "it's") = false
  /\ wellEscaped (lit "A&amp;B&lt;C&gt;") = true.
Proof.
  repeat split; vm_compute; reflexivity.
Qed.

Example estimate_at_zero :
  @estimateTextDimensions Reference.runtime (lit "ab") 20 0
  = Size.mk (@baseWidthOf (lit "ab") 20) (20 * 1.2)
  /\ @baseWidthOf (lit "ab") 20 == 24
  /\ @baseWidthOf [20013; 97]%N 20 == 32.
Proof.
  repeat split; vm_compute; reflexivity.
Qed.

(* ================================================================== *)
(** * Further properties *)

(** ** Frequency Analyzer: tokens *)

Lemma splitLoop_word (w s cur : jsstring) (inRun : bool) :
  Forall (fun c => isWhiteSpace c = false) w ->
  splitLoop (w ++ s) cur inRun
  = splitLoop s (rev w ++ cur) (match w with [] => inRun | _ :: _ => false end).
Proof.
  intro H. revert cur inRun. induction H as [|c w Hc _ IH]; intros cur inRun.
  - reflexivity.
  - simpl app. simpl splitLoop. rewrite Hc, IH.
    simpl rev. rewrite <- app_assoc. simpl. destruct w; reflexivity.
Qed.

Lemma tokens_join_from (ws : list jsstring) :
  Forall clean ws ->
  forall inRun, filter nonEmpty (splitLoop (join space ws) [] inRun) = ws.
Proof.
  induction ws as [|a ws IH]; intros Hc inRun.
  - reflexivity.
  - inversion Hc as [|? ? [Hne Hfree] Hrest]; subst.
    destruct ws as [|b ws].
    + simpl join. rewrite <- (app_nil_r a) at 1.
      rewrite (splitLoop_word [] [] inRun Hfree). simpl.
      rewrite app_nil_r, rev_involutive.
      destruct a; [contradiction | reflexivity].
    + change (join space (a :: b :: ws)) with (a ++ space ++ join space (b :: ws)).
      rewrite (splitLoop_word _ [] inRun Hfree).
      replace (match a with [] => inRun | _ :: _ => false end) with false
        by (destruct a; [contradiction | reflexivity]).
      rewrite app_nil_r.
      change (space ++ join space (b :: ws)) with (32%N :: join space (b :: ws)).
      simpl splitLoop. rewrite rev_involutive. simpl filter.
      replace (nonEmpty a) with true
        by (destruct a; [contradiction | reflexivity]).
      f_equal. apply IH, Hrest.
Qed.

(** X1.  Splitting undoes joining: the tokens of words joined by single
    spaces are those words, when no word is empty or holds white space;
    and the tokens of any text are of that kind, so that joining the
    tokens of a text and splitting again gives the same tokens. *)
Theorem tokens_join_roundtrip (ws : list jsstring) :
  Forall clean ws ->
  tokens (join space ws) = ws
  /\ forall text, Forall clean (tokens text)
                  /\ tokens (join space (tokens text)) = tokens text.
Proof.
  intro H. split.
  - apply (tokens_join_from H).
  - intro text. split; [apply tokens_clean|].
    apply (tokens_join_from (tokens_clean text)).
Qed.

Lemma tokens_join_roundtrip_witness :
  tokens (join space [lit "word"; lit "cloud"]) = [lit "word"; lit "cloud"]
  /\ forall text, Forall clean (tokens text)
                  /\ tokens (join space (tokens text)) = tokens text.
Proof.
  apply tokens_join_roundtrip.
  repeat constructor; discriminate.
Defined.

(* ================================================================== *)
(** ** Frequency Analyzer: what the ranking holds *)

Lemma analyze_as_rank (cap : nat) (text : jsstring) :
  analyzeWordFrequencyCap cap text = rankTokens cap (tokens text).
Proof.
  unfold analyzeWordFrequencyCap.
  destruct ((List.length text =? 0)%nat || (List.length (trim text) =? 0)%nat) eqn:G;
    [|reflexivity].
  assert (E : tokens text = []).
  { apply orb_true_iff in G as [G | G]; apply Nat.eqb_eq in G.
    - destruct text; [reflexivity | discriminate].
    - apply tokens_blank. destruct (trim text); [reflexivity | discriminate]. }
  rewrite E. destruct cap; reflexivity.
Qed.

Lemma firstOcc_complete (seen ws : list jsstring) (w : jsstring) :
  In w ws -> ~ In w seen -> In w (firstOcc seen ws).
Proof.
  revert seen. induction ws as [|u ws IH]; simpl; intros seen Hin Hs; [contradiction|].
  destruct (in_dec str_dec u seen) as [Hu | Hu].
  - destruct Hin as [-> | Hin]; [contradiction | apply IH; assumption].
  - destruct (str_dec u w) as [-> | Hne]; [left; reflexivity|].
    right. destruct Hin as [-> | Hin]; [contradiction|].
    apply IH; [exact Hin|]. intros [E | H]; [congruence | contradiction].
Qed.

(** The entries of the frequency map of a token list. *)
Lemma countMap_entries (ws : list jsstring) :
  keys (fold_left bump ws []) = firstOcc [] ws
  /\ (forall k v, In (k, v) (fold_left bump ws []) ->
                  In k ws /\ v = Z.of_nat (count_occ str_dec ws k))
  /\ (forall k, In k ws ->
                In (k, Z.of_nat (count_occ str_dec ws k)) (fold_left bump ws [])).
Proof.
  set (m := fold_left bump ws []).
  assert (Hkeys : keys m = firstOcc [] ws) by (unfold m; rewrite keys_fold_bump; reflexivity).
  assert (Hnd : NoDup (keys m)) by (rewrite Hkeys; apply firstOcc_NoDup).
  assert (Hval : forall k v, In (k, v) m -> v = Z.of_nat (count_occ str_dec ws k)).
  { intros k v Hin. pose proof (@mapGet_In m k v Hnd Hin) as Hget.
    pose proof (getOrZero_fold_bump ws [] k) as Hcount. fold m in Hcount.
    unfold getOrZero in Hcount. rewrite Hget in Hcount. simpl in Hcount. lia. }
  split; [exact Hkeys|]. split.
  - intros k v Hin. split; [|apply Hval, Hin].
    apply (in_map fst) in Hin. fold (keys m) in Hin. rewrite Hkeys in Hin.
    apply firstOcc_In in Hin. apply Hin.
  - intros k Hin.
    assert (Hk : In k (keys m)).
    { rewrite Hkeys. apply firstOcc_complete; [exact Hin | intros []]. }
    apply in_map_iff in Hk as ([k' v] & E & Hkv). simpl in E. subst k'.
    rewrite <- (Hval k v Hkv). exact Hkv.
Qed.

Lemma sumCounts_bump (m : FreqMap) (w : jsstring) :
  sumCounts (bump m w) = (sumCounts m + 1)%Z.
Proof.
  unfold bump. induction m as [|[k v] m IH]; simpl.
  - unfold getOrZero. simpl. lia.
  - unfold getOrZero in *. simpl. destruct (str_eqb k w); simpl; lia.
Qed.

Lemma sumCounts_fold (ws : list jsstring) (m : FreqMap) :
  sumCounts (fold_left bump ws m) = (sumCounts m + Z.of_nat (List.length ws))%Z.
Proof.
  revert m. induction ws as [|w ws IH]; intro m; simpl fold_left.
  - simpl. lia.
  - rewrite IH, sumCounts_bump. simpl List.length. lia.
Qed.

Lemma sumFrequencies_perm (l l' : list WordFreq) :
  Permutation l l' -> sumFrequencies l = sumFrequencies l'.
Proof.
  intro H. induction H; simpl; lia.
Qed.

Lemma sumFrequencies_entries (m : FreqMap) :
  sumFrequencies (map (fun e => mkWordFreq (fst e) (snd e)) m) = sumCounts m.
Proof.
  induction m as [|e m IH]; simpl; [reflexivity | rewrite IH; reflexivity].
Qed.

Lemma sumFrequencies_app (l l' : list WordFreq) :
  sumFrequencies (l ++ l') = (sumFrequencies l + sumFrequencies l')%Z.
Proof.
  induction l as [|e l IH]; simpl; [reflexivity | rewrite IH; lia].
Qed.

Lemma sumFrequencies_nonneg (l : list WordFreq) :
  Forall (fun e => (0 <= wf_frequency e)%Z) l -> (0 <= sumFrequencies l)%Z.
Proof.
  intro H. induction H; simpl; lia.
Qed.

Lemma NoDup_firstn (A : Type) (n : nat) (l : list A) : NoDup l -> NoDup (firstn n l).
Proof.
  intro H. rewrite <- (firstn_skipn n l) in H.
  apply NoDup_app_remove_r in H. exact H.
Qed.

(** The ranking before the cap: the sorted entries of the frequency map. *)
Lemma ranking_sorted (ws : list jsstring) :
  Forall clean ws ->
  exists sorted,
    (forall cap, rankTokens cap ws = firstn cap sorted)
    /\ Permutation (words sorted) (firstOcc [] ws)
    /\ (forall e, In e sorted <->
                  In (wf_word e) ws
                  /\ wf_frequency e = Z.of_nat (count_occ str_dec ws (wf_word e)))
    /\ sumFrequencies sorted = Z.of_nat (List.length ws)
    /\ StronglySorted (fun a b => (wf_frequency b <= wf_frequency a)%Z) sorted.
Proof.
  intro Hclean.
  destruct (countMap_entries ws) as (Hkeys & Hsound & Hcomplete).
  set (m := fold_left bump ws []) in *.
  set (entries := map (fun e => mkWordFreq (fst e) (snd e)) m).
  exists (jsSort byFrequencyDesc entries).
  pose proof (jsSort_perm byFrequencyDesc entries) as Hperm.
  split; [|split; [|split; [|split]]].
  - intro cap. unfold rankTokens. rewrite (fold_countWord_clean _ Hclean). reflexivity.
  - rewrite <- Hkeys. unfold words, keys.
    eapply Permutation_trans; [apply Permutation_map, Hperm|].
    unfold entries. rewrite map_map. simpl. apply Permutation_refl.
  - intro e. rewrite jsSort_In. unfold entries. rewrite in_map_iff. split.
    + intros ([k v] & <- & Hin). simpl. apply (Hsound k v Hin).
    + intros [Hin Hf]. exists (wf_word e, wf_frequency e). split.
      * destruct e; reflexivity.
      * rewrite Hf. apply Hcomplete, Hin.
  - rewrite (sumFrequencies_perm Hperm). unfold entries.
    rewrite sumFrequencies_entries. unfold m. rewrite sumCounts_fold. reflexivity.
  - apply StronglySorted_impl
      with (R := fun a b => inject_Z (wf_frequency b) <= inject_Z (wf_frequency a)).
    + intros a b H. rewrite Zle_Qle. exact H.
    + apply (jsSort_sorted (fun e => inject_Z (wf_frequency e)) byFrequencyDesc
                           byFrequencyDesc_key).
Qed.

(** X2.  Whatever the cap, the words of the ranking are pairwise distinct
    tokens of the text and their frequencies add up to at most the number
    of tokens.  When the text has no more distinct tokens than the cap,
    nothing is lost: every token is ranked with its number of
    occurrences, there are as many entries as distinct tokens, and the
    frequencies add up to the number of tokens. *)
Theorem analyzeWordFrequency_complete (cap : nat) (text : jsstring) :
  NoDup (words (analyzeWordFrequencyCap cap text))
  /\ (forall e, In e (analyzeWordFrequencyCap cap text) -> In (wf_word e) (tokens text))
  /\ (sumFrequencies (analyzeWordFrequencyCap cap text)
      <= Z.of_nat (List.length (tokens text)))%Z
  /\ ((List.length (firstOcc [] (tokens text)) <= cap)%nat ->
      (forall w, In w (tokens text) ->
                 In (mkWordFreq w (Z.of_nat (count_occ str_dec (tokens text) w)))
                    (analyzeWordFrequencyCap cap text))
      /\ List.length (analyzeWordFrequencyCap cap text)
         = List.length (firstOcc [] (tokens text))
      /\ sumFrequencies (analyzeWordFrequencyCap cap text)
         = Z.of_nat (List.length (tokens text))).
Proof.
  rewrite analyze_as_rank.
  destruct (ranking_sorted (tokens_clean text)) as (sorted & Hrank & Hperm & Hin & Hsum & _).
  rewrite Hrank.
  assert (Hnd : NoDup (words sorted)).
  { apply (Permutation_NoDup (Permutation_sym Hperm)), firstOcc_NoDup. }
  split; [|split; [|split]].
  - unfold words. rewrite <- firstn_map. apply NoDup_firstn, Hnd.
  - intros e He. apply In_firstn in He. apply Hin in He. apply He.
  - rewrite <- Hsum. rewrite <- (firstn_skipn cap sorted) at 2.
    rewrite sumFrequencies_app.
    assert (0 <= sumFrequencies (skipn cap sorted))%Z; [|lia].
    apply sumFrequencies_nonneg, Forall_forall. intros e He.
    assert (He' : In e sorted).
    { rewrite <- (firstn_skipn cap sorted). apply in_or_app. right. exact He. }
    apply Hin in He' as [_ ->]. lia.
  - intro Hcap.
    assert (Hlen : List.length sorted = List.length (firstOcc [] (tokens text))).
    { rewrite <- (Permutation_length Hperm). unfold words. rewrite length_map. reflexivity. }
    rewrite firstn_all2 by lia.
    split; [|split; assumption].
    intros w Hw. apply Hin. simpl. split; [exact Hw | reflexivity].
Qed.

Lemma StronglySorted_app_cross (A : Type) (R : A -> A -> Prop) (l l' : list A) :
  StronglySorted R (l ++ l') -> forall a b, In a l -> In b l' -> R a b.
Proof.
  induction l as [|c l IH]; simpl; intros H a b Ha Hb; [contradiction|].
  inversion H as [|? ? Hs Hf]; subst.
  destruct Ha as [<- | Ha].
  - rewrite Forall_forall in Hf. apply Hf, in_or_app. right. exact Hb.
  - apply (IH Hs a b Ha Hb).
Qed.

(** X3.  The cap keeps the most frequent words: a token that the ranking
    leaves out occurs no more often than any word that it keeps. *)
Theorem cap_keeps_most_frequent (cap : nat) (text : jsstring) (w : jsstring)
        (e : WordFreq) :
  In w (tokens text) ->
  ~ In w (words (analyzeWordFrequencyCap cap text)) ->
  In e (analyzeWordFrequencyCap cap text) ->
  (Z.of_nat (count_occ str_dec (tokens text) w) <= wf_frequency e)%Z.
Proof.
  rewrite analyze_as_rank.
  destruct (ranking_sorted (tokens_clean text)) as (sorted & Hrank & _ & Hin & _ & Hsorted).
  rewrite Hrank. intros Hw Hout He.
  set (d := mkWordFreq w (Z.of_nat (count_occ str_dec (tokens text) w))).
  assert (Hd : In d sorted) by (apply Hin; simpl; split; [exact Hw | reflexivity]).
  rewrite <- (firstn_skipn cap sorted) in Hd, Hsorted.
  apply in_app_or in Hd as [Hd | Hd].
  - exfalso. apply Hout. unfold words. apply (in_map wf_word) in Hd. exact Hd.
  - apply (@StronglySorted_app_cross _ _ _ _ Hsorted e d He Hd).
Qed.

Lemma cap_keeps_most_frequent_witness :
  (Z.of_nat (count_occ str_dec (tokens (lit "a a b b c")) (lit "c")) <= 2)%Z.
Proof.
  apply (@cap_keeps_most_frequent 2 (lit "a a b b c") (lit "c") (mkWordFreq (lit "a") 2)).
  - vm_compute. tauto.
  - vm_compute. intros [H | [H | []]]; discriminate.
  - vm_compute. tauto.
Defined.

(* ================================================================== *)
(** ** Glyph Box Preparer: the boxes *)

Lemma Forall2i_length (A B : Type) (R : nat -> A -> B -> Prop) (i : nat)
      (l : list A) (l' : list B) :
  Forall2i R i l l' -> List.length l' = List.length l.
Proof.
  intro H. induction H; simpl; congruence.
Qed.

Lemma Forall2i_map (A B C : Type) (R : nat -> A -> B -> Prop)
      (f : A -> C) (g : B -> C) (i : nat) (l : list A) (l' : list B) :
  (forall i a b, R i a b -> g b = f a) ->
  Forall2i R i l l' -> map g l' = map f l.
Proof.
  intros HR H. induction H as [|i a b l l' Hab _ IH]; simpl; [reflexivity|].
  rewrite (HR _ _ _ Hab), IH. reflexivity.
Qed.

Lemma Forall2i_nth (A B : Type) (R : nat -> A -> B -> Prop) (i : nat)
      (l : list A) (l' : list B) :
  Forall2i R i l l' ->
  forall k b, nth_error l' k = Some b ->
              exists a, nth_error l k = Some a /\ R (i + k)%nat a b.
Proof.
  intro H. induction H as [|i a b l l' Hab _ IH]; intros k c Hk.
  - destruct k; discriminate.
  - destruct k as [|k]; simpl in Hk.
    + injection Hk as <-. exists a. rewrite Nat.add_0_r. split; [reflexivity | exact Hab].
    + destruct (IH k c Hk) as (a' & Ha & HR). exists a'. split; [exact Ha|].
      replace (i + S k)%nat with (S i + k)%nat by lia. exact HR.
Qed.

Section Boxes.
Context {rt : Runtime}.

Lemma prepareLoop_boxes (sizeOf : Q -> Q) (colorOf : nat -> Z -> option jsstring)
      (angleOf : nat -> nat -> Z -> result (option Q * nat)) :
  forall items calls index out,
    prepareLoop sizeOf colorOf angleOf calls index items = Ok out ->
    Forall2i (fun i item w =>
                exists calls0 angle calls1,
                  angleOf calls0 i (wf_frequency item) = Ok (Some angle, calls1)
                  /\ w = glyphBox sizeOf colorOf i item angle)
             index items out.
Proof.
  induction items as [|item rest IH]; simpl; intros calls index out H.
  - injection H as <-. constructor.
  - destruct (angleOf calls index (wf_frequency item)) as [[a calls']| | |] eqn:Ea;
      simpl in H; try discriminate.
    destruct a as [a|]; [|discriminate].
    destruct (prepareLoop sizeOf colorOf angleOf calls' (S index) rest) as [tail| | |] eqn:E;
      simpl in H; try discriminate.
    injection H as <-. constructor; [|apply (IH _ _ _ E)].
    exists calls, a, calls'. split; [exact Ea | reflexivity].
Qed.

Lemma getThemeColors_length (theme : jsstring) :
  (10 <= List.length (getThemeColors theme))%nat.
Proof.
  unfold getThemeColors, colorThemes, lookupTheme.
  repeat match goal with
         | |- context [str_eqb ?a ?b] => destruct (str_eqb a b)
         end; simpl; lia.
Qed.

Lemma selectColorInternal_defined (colors : list jsstring) (index : nat)
      (frequency maxFreq : Q) :
  colors <> [] ->
  exists c, selectColorInternal colors index frequency maxFreq = Some c /\ In c colors.
Proof.
  intro Hne.
  assert (Hlen : (0 < List.length colors)%nat) by (destruct colors; [contradiction | simpl; lia]).
  assert (H : forall m, (0 < m <= List.length colors)%nat ->
                        exists c, nth_error colors (index mod m) = Some c /\ In c colors).
  { intros m Hm. destruct (@nth_error_mod _ colors index m Hm) as (c & Hc).
    exists c. split; [exact Hc | apply (nth_error_In _ _ Hc)]. }
  unfold selectColorInternal.
  destruct (frequency / maxFreq >? 0.8); [apply H; lia|].
  destruct (frequency / maxFreq >? 0.5); apply H; lia.
Qed.


End Boxes.


(* ================================================================== *)
(** ** Glyph Box Preparer: the range of sizes and angles *)

Section Ranges.
Context {rt : Runtime}.

(** X5.  For a font-size range with min <= max the computed size never
    exceeds max, and it is at least min when the host's square root of
    the normalised frequency is not negative; equal frequencies give the
    midpoint of the range; and a range with min = max gives exactly that
    size, in the base generator and in its two siblings alike. *)
Theorem calculateFontSize_range (frequency minFreq maxFreq : Q) (r : Range.t) :
  Range.min r <= Range.max r ->
  calculateFontSize frequency minFreq maxFreq r <= Range.max r
  /\ (0 <= Math_pow ((frequency - minFreq) / (maxFreq - minFreq)) 0.5 ->
      Range.min r <= calculateFontSize frequency minFreq maxFreq r)
  /\ (maxFreq == minFreq ->
      calculateFontSize frequency minFreq maxFreq r == (Range.min r + Range.max r) / 2)
  /\ (Range.min r == Range.max r ->
      calculateFontSize frequency minFreq maxFreq r == Range.min r
      /\ MultiFormat.calculateFontSize frequency minFreq maxFreq r == Range.min r
      /\ Advanced.calculateAdvancedFontSize frequency minFreq maxFreq r == Range.min r).
Proof.
  intro Hr.
  unfold calculateFontSize, MultiFormat.calculateFontSize,
    Advanced.calculateAdvancedFontSize.
  set (s := Math_pow ((frequency - minFreq) / (maxFreq - minFreq)) 0.5).
  set (s' := Math_pow (Math_log ((frequency - minFreq) / (maxFreq - minFreq) + 1)
                       / Math_log 2) 0.8).
  set (m := Range.min r) in *. set (M := Range.max r) in *.
  assert (Hhalf : (m + M) / 2 == (m + M) * (1 # 2)) by reflexivity.
  destruct (Qmin_cases (m + s * (M - m)) (m + (M - m) * 0.8)) as [[H1 E1] | [H1 E1]];
    destruct (maxFreq =? minFreq) eqn:E.
  all: split; [try lra | split; [intro Hs | split; [intro Hf | intro Hd]]].
  all: try (rewrite Hhalf; lra).
  all: try (apply Qeq_bool_iff in Hf; congruence).
  all: try reflexivity.
  all: try (assert (0 <= s * (M - m)) by (apply Qmult_le_0_compat; lra); lra).
  all: try (assert (Hz : M - m == 0) by lra; rewrite Hz in *;
            repeat split; try rewrite Hhalf; lra).
  all: try lra.
Qed.

Lemma generateAnglesLoop_grid (angleMax angleStep : Q) :
  0 <= angleStep ->
  forall fuel angle acc out,
    generateAnglesLoop fuel angleMax angleStep angle acc = Ok out ->
    exists fresh, out = acc ++ fresh
                  /\ Forall (fun a => angle <= a /\ a <= angleMax) fresh.
Proof.
  intro Hstep. induction fuel as [|fuel IH]; simpl; intros angle acc out H.
  - discriminate.
  - destruct (angle <=? angleMax) eqn:E.
    + apply Qle_bool_iff in E.
      destruct (IH _ _ _ H) as (fresh & -> & Hall).
      exists (angle :: fresh). rewrite <- app_assoc. split; [reflexivity|].
      constructor; [lra|]. revert Hall. apply Forall_impl. intros a Ha. lra.
    + injection H as <-. exists []. rewrite app_nil_r. split; [reflexivity | constructor].
Qed.

Lemma generateAngles_grid (fuel : nat) (r : Range.t) (angleStep : Q) (angles : list Q) :
  generateAngles fuel r angleStep = Ok angles ->
  Forall (fun a => a = 0 \/ (Range.min r <= a /\ a <= Range.max r)) angles.
Proof.
  unfold generateAngles.
  destruct (generateAnglesLoop fuel (Range.max r) angleStep (Range.min r) [])
    as [raw| | |] eqn:E; simpl; try discriminate.
  intro H. injection H as <-.
  assert (Hraw : Forall (fun a => Range.min r <= a /\ a <= Range.max r) raw).
  { destruct (Qlt_le_dec angleStep 0) as [Hneg | Hpos].
    - destruct fuel as [|fuel]; [discriminate|]. simpl in E.
      destruct (Range.min r <=? Range.max r) eqn:El.
      + apply Qle_bool_iff in El.
        rewrite generateAnglesLoop_diverges in E by lra. discriminate.
      + injection E as <-. constructor.
    - destruct (@generateAnglesLoop_grid (Range.max r) angleStep Hpos fuel _ _ _ E)
        as (fresh & -> & Hall).
      exact Hall. }
  destruct raw as [|a raw]; simpl.
  - constructor; [left; reflexivity | constructor].
  - revert Hraw. apply Forall_impl. intros b Hb. right. exact Hb.
Qed.

Lemma jsNth_In (A : Type) (l : list A) (i : Z) (a : A) : jsNth l i = Some a -> In a l.
Proof.
  unfold jsNth. destruct (i <? 0)%Z; [discriminate|]. apply nth_error_In.
Qed.

Lemma calculateAngle_range (fuel calls index : nat) (r : Range.t) (angleStep a : Q)
      (calls' : nat) :
  calculateAngle fuel calls index r angleStep = Ok (Some a, calls') ->
  ((index < 5)%nat -> a = 0)
  /\ ((index < 15)%nat -> Qabs a <= 30)
  /\ (a = 0 \/ (Range.min r <= a /\ a <= Range.max r)).
Proof.
  unfold calculateAngle.
  destruct (generateAngles fuel r angleStep) as [angles| | |] eqn:Eg; simpl; try discriminate.
  pose proof (generateAngles_grid _ _ _ Eg) as Hgrid. rewrite Forall_forall in Hgrid.
  destruct (index <? 5)%nat eqn:E5.
  - intro H. injection H as <- _. repeat split; try (intros _; reflexivity).
    + intros _. apply Qle_bool_iff. reflexivity.
    + left. reflexivity.
  - apply Nat.ltb_ge in E5. destruct (index <? 15)%nat eqn:E15.
    + intro H. injection H as <- _.
      destruct (jsNth (filter (fun angle => Qabs angle <=? 30) angles) _) as [b|] eqn:Eb;
        simpl.
      * apply jsNth_In, filter_In in Eb as [Hin Hb]. apply Qle_bool_iff in Hb.
        split; [intro; lia|]. split; [intros _; exact Hb | apply Hgrid, Hin].
      * split; [intros _; reflexivity|].
        split; [intros _; apply Qle_bool_iff; reflexivity | left; reflexivity].
    + apply Nat.ltb_ge in E15. intro H. injection H as H _.
      apply jsNth_In in H.
      split; [intro; lia|]. split; [intro; lia | apply Hgrid, H].
Qed.

(** X6.  Every angle that the preparer assigns is 0 or lies in the
    configured range; the ranks 0 to 14 get an angle of at most 30 degrees
    either way; and the five top-ranked words are horizontal, their box
    being the unturned one: the sum of the advances by 1.2 times the
    unrounded font size. *)
Theorem prepareWordItems_angles (fuel : nat) (wordFrequencies : list WordFreq)
        (config : Options.t) (items : list WordItem) (k : nat) (w : WordItem) :
  prepareWordItems fuel wordFrequencies config = Ok items ->
  nth_error items k = Some w ->
  (angle w = 0
   \/ (Range.min (Options.angleRange config) <= angle w
       /\ angle w <= Range.max (Options.angleRange config)))
  /\ ((k < 15)%nat -> Qabs (angle w) <= 30)
  /\ ((k < 5)%nat ->
      angle w = 0
      /\ exists size,
           fontSize w = inject_Z (Math_round size)
           /\ width w = baseWidthOf (text w) size
           /\ height w = size * 1.2).
Proof.
  unfold prepareWordItems.
  destruct (frequencies wordFrequencies) as [|f fs].
  - intro H. injection H as <-. destruct k; discriminate.
  - intros H Hk. apply prepareLoop_boxes in H.
    destruct (Forall2i_nth H _ Hk) as (item & _ & c0 & an & c1 & Han & ->).
    simpl Nat.add in Han. apply calculateAngle_range in Han as (H5 & H15 & Hr).
    cbn [angle glyphBox]. split; [exact Hr|]. split; [exact H15|].
    intro Hlt. rewrite (H5 Hlt). split; [reflexivity|].
    eexists. cbn [fontSize text width height]. split; [reflexivity|].
    split; reflexivity.
Qed.
End Ranges.

Lemma calculateFontSize_range_witness :
  @calculateFontSize Reference.runtime 2 1 3 (Range.mk 16 66) <= 66
  /\ (0 <= @Math_pow Reference.runtime ((2 - 1) / (3 - 1)) 0.5 ->
      16 <= @calculateFontSize Reference.runtime 2 1 3 (Range.mk 16 66))
  /\ (3 == 1 ->
      @calculateFontSize Reference.runtime 2 1 3 (Range.mk 16 66) == (16 + 66) / 2)
  /\ (16 == 66 ->
      @calculateFontSize Reference.runtime 2 1 3 (Range.mk 16 66) == 16
      /\ @MultiFormat.calculateFontSize Reference.runtime 2 1 3 (Range.mk 16 66) == 16
      /\ @Advanced.calculateAdvancedFontSize Reference.runtime 2 1 3 (Range.mk 16 66) == 16).
Proof.
  apply (@calculateFontSize_range Reference.runtime 2 1 3 (Range.mk 16 66)).
  apply Qle_bool_iff. reflexivity.
Defined.

Lemma prepareWordItems_angles_witness :
  (angle (nth 7 (@preparedOf Reference.runtime 10 thirteenWords defaultOptions) nowhere) = 0
   \/ (Range.min (Options.angleRange defaultOptions)
       <= angle (nth 7 (@preparedOf Reference.runtime 10 thirteenWords defaultOptions) nowhere)
       /\ angle (nth 7 (@preparedOf Reference.runtime 10 thirteenWords defaultOptions) nowhere)
          <= Range.max (Options.angleRange defaultOptions)))
  /\ ((7 < 15)%nat ->
      Qabs (angle (nth 7 (@preparedOf Reference.runtime 10 thirteenWords defaultOptions)
                       nowhere)) <= 30)
  /\ ((7 < 5)%nat ->
      angle (nth 7 (@preparedOf Reference.runtime 10 thirteenWords defaultOptions) nowhere) = 0
      /\ exists size,
           fontSize (nth 7 (@preparedOf Reference.runtime 10 thirteenWords defaultOptions)
                         nowhere) = inject_Z (Math_round size)
           /\ width (nth 7 (@preparedOf Reference.runtime 10 thirteenWords defaultOptions)
                         nowhere)
              = baseWidthOf (text (nth 7 (@preparedOf Reference.runtime 10 thirteenWords
                                            defaultOptions) nowhere)) size
           /\ height (nth 7 (@preparedOf Reference.runtime 10 thirteenWords defaultOptions)
                          nowhere) = size * 1.2).
Proof.
  apply (@prepareWordItems_angles Reference.runtime 10 (analyzeWordFrequency thirteenWords)
           defaultOptions
           (@preparedOf Reference.runtime 10 thirteenWords defaultOptions) 7).
  - vm_compute. reflexivity.
  - vm_compute. reflexivity.
Defined.

(* ================================================================== *)
(** ** Spatial Packer: which words are placed *)

Section Selection.
Context {rt : Runtime}.
Variable config : Options.t.

Lemma layoutLoop_picked (centerX centerY : Q) (sortedWords : list WordItem) :
  forall (i : nat) (occupiedAreas : list Rect.t) (placed : list WordItem),
  exists more,
    layoutLoop config centerX centerY i sortedWords occupiedAreas placed
    = placed ++ more
    /\ picked sortedWords more
    /\ Forall (room config) (if (i =? 0)%nat then tl more else more).
Proof.
  induction sortedWords as [|word rest IH]; intros i occ placed; simpl.
  - exists []. rewrite app_nil_r. split; [reflexivity|]. split; [constructor|].
    destruct (i =? 0)%nat; constructor.
  - destruct (i =? 0)%nat eqn:Ei.
    + destruct (IH (S i) (occ ++ [recordedArea config
                (setPosition word (clampX config word (centerX - width word / 2))
                             (clampY config word (centerY - height word / 2)))])
                (placed ++ [setPosition word (clampX config word (centerX - width word / 2))
                                        (clampY config word (centerY - height word / 2))]))
        as (more & E & Hp & Hr).
      rewrite E, <- app_assoc. eexists. split; [reflexivity|].
      split; [apply picked_take, Hp | exact Hr].
    + destruct (findPositionOrderedSpiral word centerX centerY occ config)
        as [[x0 y0]|] eqn:Ef.
      * destruct (IH (S i) (occ ++ [recordedArea config
                  (setPosition word (clampX config word x0) (clampY config word y0))])
                  (placed ++ [setPosition word (clampX config word x0)
                                          (clampY config word y0)]))
          as (more & E & Hp & Hr).
        rewrite E, <- app_assoc. eexists. split; [reflexivity|].
        split; [apply picked_take, Hp|].
        constructor; [|exact Hr].
        unfold room. cbn [setPosition fontSize width height startRadius maxRadius].
        unfold findPositionOrderedSpiral, spiralFuel in Ef. simpl radiusLoop in Ef.
        destruct (startRadius word <? maxRadius word config) eqn:Et; [|discriminate].
        apply Qltb_lt in Et. exact Et.
      * destruct (IH (S i) occ placed) as (more & E & Hp & Hr).
        exists more. split; [exact E|]. split; [apply picked_skip, Hp | exact Hr].
Qed.

Lemma picked_from (l out : list WordItem) :
  picked l out ->
  Forall (fun o => exists w, In w l /\ o = setPosition w (x o) (y o)) out.
Proof.
  induction 1 as [|w l out _ IH|w x' y' l out _ IH].
  - constructor.
  - revert IH. apply Forall_impl. intros o (v & Hv & Ho). exists v.
    split; [right; exact Hv | exact Ho].
  - constructor.
    + exists w. split; [left; reflexivity | reflexivity].
    + revert IH. apply Forall_impl. intros o (v & Hv & Ho). exists v.
      split; [right; exact Hv | exact Ho].
Qed.

Lemma picked_length (l out : list WordItem) :
  picked l out -> (List.length out <= List.length l)%nat.
Proof.
  induction 1; simpl; lia.
Qed.

Lemma picked_sorted (l out : list WordItem) :
  picked l out -> StronglySorted bySizeFalling l -> StronglySorted bySizeFalling out.
Proof.
  induction 1 as [|w l out _ IH|w x' y' l out Hp IH]; intro Hs.
  - constructor.
  - apply StronglySorted_inv in Hs as [Hs _]. apply IH, Hs.
  - apply StronglySorted_inv in Hs as [Hs Hall]. constructor; [apply IH, Hs|].
    rewrite Forall_forall in Hall.
    pose proof (picked_from Hp) as Hfrom. revert Hfrom. apply Forall_impl.
    intros o (v & Hv & ->). unfold bySizeFalling in *. cbn [setPosition fontSize].
    apply Hall, Hv.
Qed.

(** X7.  The layout is a selection from the words sorted by falling font
    size: it keeps their order, so it is itself ordered by falling font
    size; it holds no more words than it was given; and each placed word
    is one of the given words with nothing but its position changed. *)
Theorem smartLayoutWords_selection (wordItems : list WordItem) :
  picked (jsSort byFontSizeDesc wordItems) (smartLayoutWords wordItems config)
  /\ (List.length (smartLayoutWords wordItems config) <= List.length wordItems)%nat
  /\ StronglySorted bySizeFalling (smartLayoutWords wordItems config)
  /\ Forall (fun o => exists w, In w wordItems /\ o = setPosition w (x o) (y o))
            (smartLayoutWords wordItems config).
Proof.
  unfold smartLayoutWords.
  destruct (layoutLoop_picked (Options.width config / 2) (Options.height config / 2)
              (jsSort byFontSizeDesc wordItems) 0 [] []) as (more & -> & Hp & _).
  cbn [app].
  assert (Hkey : forall a b : WordItem, byFontSizeDesc a b == fontSize b - fontSize a)
    by (intros; reflexivity).
  split; [exact Hp|]. split; [|split].
  - rewrite <- (jsSort_length byFontSizeDesc wordItems). apply picked_length, Hp.
  - apply (picked_sorted Hp). exact (jsSort_sorted fontSize byFontSizeDesc Hkey wordItems).
  - pose proof (picked_from Hp) as Hfrom. revert Hfrom. apply Forall_impl.
    intros o (w & Hw & Ho). exists w. split; [|exact Ho].
    apply jsSort_In in Hw. exact Hw.
Qed.

(** X8.  The spiral search always comes to an end, within the number of
    radii that the step of at least 2 allows, and more iterations would
    not change its answer; a position that it returns keeps the margin 10
    and clears every occupied region by the gap of the search; it finds
    nothing when its first radius is not below the largest one; hence
    every placed word but the first has a first radius below the
    largest one: a word too large for that is left out of the layout
    unless it is the one placed first. *)
Theorem search_ends (wordItems : list WordItem) (word : WordItem)
        (centerX centerY : Q) (occupiedAreas : list Rect.t) :
  (forall fuel, (spiralFuel word config <= fuel)%nat ->
     radiusLoop word centerX centerY occupiedAreas config fuel (startRadius word)
     = Some (findPositionOrderedSpiral word centerX centerY occupiedAreas config))
  /\ (forall p, findPositionOrderedSpiral word centerX centerY occupiedAreas config = Some p ->
                accepted word occupiedAreas config p)
  /\ (maxRadius word config <= startRadius word ->
      findPositionOrderedSpiral word centerX centerY occupiedAreas config = None)
  /\ Forall (room config) (tl (smartLayoutWords wordItems config)).
Proof.
  split; [|split; [|split]].
  - apply radiusLoop_enough.
  - intros p Hp. exact (findPosition_accepted _ _ _ _ _ Hp).
  - intro H. unfold findPositionOrderedSpiral, spiralFuel. simpl radiusLoop.
    assert (E : (startRadius word <? maxRadius word config) = false)
      by (apply Qltb_ge, H).
    rewrite E. reflexivity.
  - unfold smartLayoutWords.
    destruct (layoutLoop_picked (Options.width config / 2) (Options.height config / 2)
                (jsSort byFontSizeDesc wordItems) 0 [] []) as (more & -> & _ & Hr).
    exact Hr.
Qed.
End Selection.

(* ================================================================== *)
(** ** Spatial Packer: the overlap test *)

(** X9.  The overlap test does not depend on the order of its two
    arguments, and it is the test whether the two closed rectangles share
    a point: a shared point makes it answer true (so rectangles that
    merely touch count as overlapping), and for rectangles of
    non-negative width and height it answers true only when there is a
    shared point. *)
Theorem isOverlapping_shared_point (area1 area2 : Rect.t) :
  isOverlapping area1 area2 = isOverlapping area2 area1
  /\ ((exists px py, inside area1 px py /\ inside area2 px py) ->
      isOverlapping area1 area2 = true)
  /\ (0 <= Rect.width area1 -> 0 <= Rect.height area1 ->
      0 <= Rect.width area2 -> 0 <= Rect.height area2 ->
      isOverlapping area1 area2 = true ->
      exists px py, inside area1 px py /\ inside area2 px py).
Proof.
  split; [|split].
  - unfold isOverlapping.
    destruct (Rect.x area1 + Rect.width area1 <? Rect.x area2),
             (Rect.x area2 + Rect.width area2 <? Rect.x area1),
             (Rect.y area1 + Rect.height area1 <? Rect.y area2),
             (Rect.y area2 + Rect.height area2 <? Rect.y area1); reflexivity.
  - intros (px & py & (A1 & A2 & A3 & A4) & (B1 & B2 & B3 & B4)).
    apply isOverlapping_true. unfold intersecting.
    split; [lra | split; [lra | split; lra]].
  - intros W1 H1 W2 H2 H. apply isOverlapping_true in H.
    destruct H as (I1 & I2 & I3 & I4).
    exists (Qmax (Rect.x area1) (Rect.x area2)), (Qmax (Rect.y area1) (Rect.y area2)).
    unfold inside.
    destruct (Qmax_cases (Rect.x area1) (Rect.x area2)) as [[Hx Ex] | [Hx Ex]];
      destruct (Qmax_cases (Rect.y area1) (Rect.y area2)) as [[Hy Ey] | [Hy Ey]];
      rewrite Ex, Ey;
      (split; [split; [lra | split; [lra | split; lra]]
              | split; [lra | split; [lra | split; lra]]]).
Qed.

(* ================================================================== *)
(** ** Renderer: escaping loses nothing *)

Lemma unescape_escape (t : jsstring) :
  forall fuel, (List.length (flat_map escapeUnit t) <= fuel)%nat ->
               unescapeLoop fuel (flat_map escapeUnit t) = t.
Proof.
  induction t as [|c t IH]; intros fuel Hf.
  - destruct fuel; reflexivity.
  - cbn [flat_map] in *. rewrite length_app in Hf.
    destruct fuel as [|fuel];
      [unfold escapeUnit in Hf;
       destruct (c =? 38)%N, (c =? 60)%N, (c =? 62)%N, (c =? 34)%N, (c =? 39)%N;
       simpl in Hf; lia|].
    unfold escapeUnit in *.
    destruct (c =? 38)%N eqn:E38;
      [apply N.eqb_eq in E38; subst; cbn; f_equal; apply IH; simpl in Hf; lia|].
    destruct (c =? 60)%N eqn:E60;
      [apply N.eqb_eq in E60; subst; cbn; f_equal; apply IH; simpl in Hf; lia|].
    destruct (c =? 62)%N eqn:E62;
      [apply N.eqb_eq in E62; subst; cbn; f_equal; apply IH; simpl in Hf; lia|].
    destruct (c =? 34)%N eqn:E34;
      [apply N.eqb_eq in E34; subst; cbn; f_equal; apply IH; simpl in Hf; lia|].
    destruct (c =? 39)%N eqn:E39;
      [apply N.eqb_eq in E39; subst; cbn; f_equal; apply IH; simpl in Hf; lia|].
    cbn [app unescapeLoop]. rewrite E38. f_equal. apply IH. simpl in Hf. lia.
Qed.

Lemma escapeUnit_length (c : N) : (1 <= List.length (escapeUnit c))%nat.
Proof.
  unfold escapeUnit.
  destruct (c =? 38)%N, (c =? 60)%N, (c =? 62)%N, (c =? 34)%N, (c =? 39)%N; simpl; lia.
Qed.

(** X10.  Escaping loses nothing: decoding the five entity references
    gives the text back, so two different texts never escape to the same
    string; a text without any of the five reserved characters is left as
    it is; and escaping never shortens a text. *)
Theorem escapeXml_roundtrip (s t : jsstring) :
  unescapeXml (escapeXml t) = t
  /\ (escapeXml s = escapeXml t -> s = t)
  /\ (forallb (fun c => negb (reserved c)) t = true -> escapeXml t = t)
  /\ (List.length t <= List.length (escapeXml t))%nat.
Proof.
  assert (Hback : forall u, unescapeXml (escapeXml u) = u).
  { intro u. unfold unescapeXml. rewrite escapeXml_unitwise.
    apply unescape_escape. lia. }
  split; [apply Hback|]. split; [|split].
  - intro H. rewrite <- (Hback s), <- (Hback t), H. reflexivity.
  - rewrite escapeXml_unitwise. induction t as [|c t IH]; intro H; [reflexivity|].
    cbn [forallb] in H. apply andb_true_iff in H as [Hc Ht].
    cbn [flat_map]. rewrite (IH Ht).
    unfold reserved in Hc. apply negb_true_iff in Hc.
    repeat (apply orb_false_iff in Hc as [Hc ?]).
    unfold escapeUnit.
    repeat match goal with E : (_ =? _)%N = false |- _ => rewrite E; clear E end.
    reflexivity.
  - rewrite escapeXml_unitwise. induction t as [|c t IH]; [simpl; lia|].
    cbn [flat_map]. rewrite length_app. pose proof (escapeUnit_length c).
    simpl List.length at 1. lia.
Qed.

(* ================================================================== *)
(** ** The output path *)

Lemma startsWith_app (s rest : jsstring) : startsWith (s ++ rest) s = true.
Proof.
  induction s as [|c s IH]; simpl; [reflexivity|].
  rewrite N.eqb_refl, IH. reflexivity.
Qed.

Lemma replaceFirst_empty (s replacement : jsstring) :
  replaceFirst s [] replacement = replacement ++ s.
Proof.
  destruct s; reflexivity.
Qed.

Lemma replaceFirst_stem (stem rest post replacement : jsstring) :
  Forall (fun c => c <> 46%N) stem ->
  replaceFirst (stem ++ (46%N :: rest) ++ post) (46%N :: rest) replacement
  = stem ++ replacement ++ post.
Proof.
  induction 1 as [|c stem Hc _ IH].
  - cbn [app].
    assert (E : replaceFirst (46%N :: rest ++ post) (46%N :: rest) replacement
                = if startsWith (46%N :: rest ++ post) (46%N :: rest)
                  then replacement ++ skipn (List.length (46%N :: rest)) (46%N :: rest ++ post)
                  else 46%N :: replaceFirst (rest ++ post) (46%N :: rest) replacement)
      by reflexivity.
    rewrite E. change (46%N :: rest ++ post) with ((46%N :: rest) ++ post).
    rewrite startsWith_app, skipn_app, skipn_all, Nat.sub_diag. reflexivity.
  - assert (E : replaceFirst ((c :: stem) ++ (46%N :: rest) ++ post) (46%N :: rest)
                             replacement
                = if startsWith ((c :: stem) ++ (46%N :: rest) ++ post) (46%N :: rest)
                  then replacement ++ skipn (List.length (46%N :: rest))
                                            ((c :: stem) ++ (46%N :: rest) ++ post)
                  else c :: replaceFirst (stem ++ (46%N :: rest) ++ post) (46%N :: rest)
                                         replacement)
      by reflexivity.
    rewrite E.
    change ((c :: stem) ++ (46%N :: rest) ++ post)
      with (c :: (stem ++ (46%N :: rest) ++ post)).
    cbn [startsWith].
    assert (E46 : (c =? 46)%N = false) by (apply N.eqb_neq, Hc).
    rewrite E46. cbn [andb]. rewrite IH. reflexivity.
Qed.

Section OutputPath.
Context {rt : Runtime}.

(** X11.  What [generate] does to the output path: a path that ends in
    .svg is left alone, and so is everything else in the configuration in
    any case; a path for which the host reports no extension gets .svg
    put in front of it, not behind; and a path made of a dot-free stem
    and its extension gets the extension replaced by .svg. *)
Theorem svgOutputPath_extension (config : Options.t) (stem rest : jsstring) :
  (endsWith (Options.outputPath config) (lit ".svg") = true ->
   svgOutputPath config = config)
  /\ svgOutputPath config
     = setOutputPath config (Options.outputPath (svgOutputPath config))
  /\ (endsWith (Options.outputPath config) (lit ".svg") = false ->
      path_extname (Options.outputPath config) = [] ->
      Options.outputPath (svgOutputPath config)
      = lit ".svg" ++ Options.outputPath config)
  /\ (endsWith (Options.outputPath config) (lit ".svg") = false ->
      Options.outputPath config = stem ++ 46%N :: rest ->
      path_extname (Options.outputPath config) = 46%N :: rest ->
      Forall (fun c => c <> 46%N) stem ->
      Options.outputPath (svgOutputPath config) = stem ++ lit ".svg").
Proof.
  unfold svgOutputPath. split; [|split; [|split]].
  - intros ->. reflexivity.
  - destruct (negb _); destruct config; reflexivity.
  - intros -> ->. cbn [negb setOutputPath Options.outputPath].
    apply replaceFirst_empty.
  - intros -> Hp He Hstem. cbn [negb setOutputPath Options.outputPath].
    rewrite He, Hp.
    pose proof (@replaceFirst_stem stem rest [] (lit ".svg") Hstem) as H.
    rewrite !app_nil_r in H. exact H.
Qed.

(** X12.  [adjustOutputPath] of the multi-format generator: a path whose
    extension is the expected one is left alone; a path for which the
    host reports no extension gets the expected extension put in front of
    it; and a path made of a dot-free stem and another extension gets
    that extension replaced by the expected one. *)
Theorem adjustOutputPath_extension (outputPath format stem rest : jsstring) :
  (path_extname outputPath = lit "." ++ format ->
   adjustOutputPath outputPath format = outputPath)
  /\ (path_extname outputPath = [] ->
      adjustOutputPath outputPath format = (lit "." ++ format) ++ outputPath)
  /\ (outputPath = stem ++ 46%N :: rest ->
      path_extname outputPath = 46%N :: rest ->
      rest <> format ->
      Forall (fun c => c <> 46%N) stem ->
      adjustOutputPath outputPath format = stem ++ lit "." ++ format).
Proof.
  unfold adjustOutputPath. split; [|split].
  - intros ->.
    assert (E : str_eqb (lit "." ++ format) (lit "." ++ format) = true)
      by (apply str_eqb_eq; reflexivity).
    rewrite E. reflexivity.
  - intros ->.
    assert (E : str_eqb [] (lit "." ++ format) = false)
      by (apply str_eqb_neq; discriminate).
    rewrite E. cbn [negb]. apply replaceFirst_empty.
  - intros Hp He Hne Hstem. rewrite He.
    assert (E : str_eqb (46%N :: rest) (lit "." ++ format) = false).
    { apply str_eqb_neq. intro H. apply Hne. injection H as H. exact H. }
    rewrite E. cbn [negb]. rewrite Hp.
    pose proof (@replaceFirst_stem stem rest [] (lit "." ++ format) Hstem) as H.
    rewrite !app_nil_r in H. exact H.
Qed.
End OutputPath.

(* ================================================================== *)
(** ** Validation of the options *)

Lemma outOfRange_error (o : option Q) (lo hi : Q) (e : ValidationError) :
  (if outOfRange o lo hi then [e] else []) = []
  <-> forall v, o = Some v -> v == 0 \/ (lo <= v /\ v <= hi).
Proof.
  unfold outOfRange. destruct o as [v|].
  - destruct (v =? 0) eqn:E0; cbn [negb andb].
    + apply Qeq_bool_iff in E0. split; [|reflexivity].
      intros _ u Hu. injection Hu as <-. left. exact E0.
    + destruct (v <? lo) eqn:E1; cbn [orb].
      * apply Qltb_lt in E1. split; [discriminate|].
        intro H. destruct (H v eq_refl) as [H0 | [H1 _]].
        -- apply Qeq_bool_iff in H0. congruence.
        -- lra.
      * apply Qltb_ge in E1. destruct (v >? hi) eqn:E2.
        -- apply Qgtb_gt in E2. split; [discriminate|].
           intro H. destruct (H v eq_refl) as [H0 | [_ H2]].
           ++ apply Qeq_bool_iff in H0. congruence.
           ++ lra.
        -- apply Qgtb_le in E2. split; [|reflexivity].
           intros _ u Hu. injection Hu as <-. right. split; assumption.
  - split; [|reflexivity]. intros _ v Hv. discriminate.
Qed.

Lemma fontSize_errors (r : Range.t) :
  (if (Range.min r <? 8) || (Range.min r >? 200) then [MinFontSizeOutOfRange] else [])
  ++ (if (Range.max r <? 8) || (Range.max r >? 200) then [MaxFontSizeOutOfRange] else [])
  ++ (if Range.max r <=? Range.min r then [FontSizeOrder] else []) = []
  <-> 8 <= Range.min r /\ Range.min r < Range.max r /\ Range.max r <= 200.
Proof.
  destruct (Range.min r <? 8) eqn:E1;
    [apply Qltb_lt in E1; split; [discriminate | intro; lra]|].
  destruct (Range.min r >? 200) eqn:E2;
    [apply Qgtb_gt in E2; split; [discriminate | intro; lra]|].
  destruct (Range.max r <? 8) eqn:E3;
    [apply Qltb_lt in E3; split; [discriminate | intro; lra]|].
  destruct (Range.max r >? 200) eqn:E4;
    [apply Qgtb_gt in E4; split; [discriminate | intro; lra]|].
  destruct (Range.max r <=? Range.min r) eqn:E5;
    [apply Qle_bool_iff in E5; split; [discriminate | intro; lra]|].
  apply Qltb_ge in E1. apply Qgtb_le in E2. apply Qltb_ge in E3. apply Qgtb_le in E4.
  apply Qleb_gt in E5. split; [|reflexivity]. intros _.
  split; [lra | split; lra].
Qed.

Lemma includes_In (a : list jsstring) (s : jsstring) : includes a s = true <-> In s a.
Proof.
  unfold includes. rewrite existsb_exists. split.
  - intros (t & Ht & E). apply str_eqb_eq in E. subst. exact Ht.
  - intro H. exists s. split; [exact H | apply str_eqb_eq; reflexivity].
Qed.

Lemma theme_error (t : jsstring) :
  (if (0 <? List.length t)%nat && negb (includes getSupportedThemes t)
   then [UnsupportedTheme t] else []) = []
  <-> t = [] \/ In t getSupportedThemes.
Proof.
  destruct t as [|c t]; [split; [left; reflexivity | reflexivity]|].
  cbn [List.length Nat.ltb Nat.leb andb].
  destruct (includes getSupportedThemes (c :: t)) eqn:E; cbn [negb].
  - apply includes_In in E. split; [right; exact E | reflexivity].
  - split; [discriminate|]. intros [H | H]; [discriminate|].
    apply includes_In in H. congruence.
Qed.

Lemma supported_palette (t : jsstring) :
  In t getSupportedThemes -> lookupTheme colorThemes t = Some (getThemeColors t).
Proof.
  unfold getThemeColors. intro H.
  destruct (lookupTheme colorThemes t) as [p|] eqn:E; [reflexivity|].
  exfalso. revert H E. unfold getSupportedThemes.
  induction colorThemes as [|[k v] table IH]; simpl; [tauto|].
  intros [H | H].
  - subst. assert (E : str_eqb t t = true) by (apply str_eqb_eq; reflexivity).
    rewrite E. discriminate.
  - destruct (str_eqb k t); [discriminate | apply IH, H].
Qed.

(** X13.  [validateOptions] finds the options valid exactly when: a given
    width, and likewise a given height, is 0 or lies in 100..5000; a given
    font-size range has 8 <= min < max <= 200; and a given theme is the
    empty string or one of the supported theme names, which then has a
    palette of its own.  The word gap, the angle range, the angle step,
    the shape and the output path are not looked at. *)
Theorem validateOptions_accepts (options : Partial.t) :
  (fst (validateOptions options) = true
   <-> (forall w, Partial.width options = Some w -> w == 0 \/ (100 <= w /\ w <= 5000))
       /\ (forall h, Partial.height options = Some h ->
                     h == 0 \/ (100 <= h /\ h <= 5000))
       /\ (forall r, Partial.fontSize options = Some r ->
                     8 <= Range.min r /\ Range.min r < Range.max r /\ Range.max r <= 200)
       /\ (forall t, Partial.theme options = Some t ->
                     t = [] \/ (In t getSupportedThemes
                                /\ lookupTheme colorThemes t = Some (getThemeColors t))))
  /\ forall shape wordGap angleRange angleStep outputPath,
       validateOptions
         (Partial.mk (Partial.theme options) shape wordGap (Partial.fontSize options)
                     angleRange angleStep outputPath (Partial.width options)
                     (Partial.height options))
       = validateOptions options.
Proof.
  split; [|intros; reflexivity].
  unfold validateOptions. cbn [fst]. rewrite Nat.eqb_eq, length_zero_iff_nil.
  rewrite <- (outOfRange_error (Partial.width options) 100 5000 WidthOutOfRange).
  rewrite <- (outOfRange_error (Partial.height options) 100 5000 HeightOutOfRange).
  set (e1 := if outOfRange (Partial.width options) 100 5000
             then [WidthOutOfRange] else []).
  set (e2 := if outOfRange (Partial.height options) 100 5000
             then [HeightOutOfRange] else []).
  set (e3 := match Partial.fontSize options with Some r => _ | None => [] end).
  set (e4 := match Partial.theme options with Some t => _ | None => [] end).
  assert (H3 : e3 = [] <->
               forall r, Partial.fontSize options = Some r ->
                         8 <= Range.min r /\ Range.min r < Range.max r /\ Range.max r <= 200).
  { subst e3. destruct (Partial.fontSize options) as [r|].
    - rewrite fontSize_errors. split.
      + intros H u Hu. injection Hu as <-. exact H.
      + intro H. apply H. reflexivity.
    - split; [intros _ r Hr; discriminate | reflexivity]. }
  assert (H4 : e4 = [] <->
               forall t, Partial.theme options = Some t ->
                         t = [] \/ (In t getSupportedThemes
                                    /\ lookupTheme colorThemes t = Some (getThemeColors t))).
  { subst e4. destruct (Partial.theme options) as [t|].
    - rewrite theme_error. split.
      + intros H u Hu. injection Hu as <-. destruct H as [H | H]; [left; exact H|].
        right. split; [exact H | apply supported_palette, H].
      + intro H. destruct (H t eq_refl) as [H' | [H' _]]; [left | right]; exact H'.
    - split; [intros _ t Ht; discriminate | reflexivity]. }
  rewrite <- H3, <- H4. split.
  - intro H. apply app_eq_nil in H as [H E4]. apply app_eq_nil in H as [H E3].
    apply app_eq_nil in H as [E1 E2]. tauto.
  - intros (-> & -> & -> & ->). reflexivity.
Qed.

(* ================================================================== *)
(** ** The advanced generator: choosing the top words *)

Lemma pickLoop_Forall (P : WordFreq -> Prop) (maxCount : nat)
      (remaining : list WordFreq) (step : nat) :
  Forall P remaining ->
  forall fuel i selected,
    Forall P selected ->
    Forall P (TopWords.pickLoop maxCount remaining step fuel i selected).
Proof.
  intro Hr. induction fuel as [|fuel IH]; intros i selected Hs; simpl; [exact Hs|].
  destruct ((i <? List.length remaining)%nat && (List.length selected <? maxCount)%nat);
    [|exact Hs].
  destruct (nth_error remaining i) as [w|] eqn:E; [|exact Hs].
  apply IH. apply Forall_app. split; [exact Hs|].
  constructor; [|constructor].
  rewrite Forall_forall in Hr. apply Hr. exact (nth_error_In _ _ E).
Qed.

Lemma filter_all (A : Type) (f : A -> bool) (l : list A) :
  Forall (fun a => f a = true) l -> filter f l = l.
Proof.
  induction 1 as [|a l Ha _ IH]; simpl; [reflexivity|]. rewrite Ha, IH. reflexivity.
Qed.

Lemma filter_none (A : Type) (f : A -> bool) (l : list A) :
  Forall (fun a => f a = false) l -> filter f l = [].
Proof.
  induction 1 as [|a l Ha _ IH]; simpl; [reflexivity|]. rewrite Ha. exact IH.
Qed.

Lemma floor_share (n : nat) : (Z.to_nat (Qfloor (ofNat n * 0.7)) <= n)%nat.
Proof.
  assert (H : (Qfloor (ofNat n * 0.7) <= Z.of_nat n)%Z).
  { rewrite Zle_Qle. eapply Qle_trans; [apply Qfloor_le|].
    fold (ofNat n). pose proof (ofNat_nonneg n). lra. }
  lia.
Qed.

(** X14.  [selectTopWords] never returns more than [maxCount] words and
    only words that it was given; a list of at most [maxCount] words comes
    back as it is; and when a longer list has no word below the threshold
    of a tenth of the first frequency, only the first 70 percent of
    [maxCount] words (rounded down) are returned, the other slots staying
    empty. *)
Theorem selectTopWords_selection (words : list WordFreq) (maxCount : nat) :
  (List.length (TopWords.selectTopWords words maxCount) <= maxCount)%nat
  /\ incl (TopWords.selectTopWords words maxCount) words
  /\ ((List.length words <= maxCount)%nat ->
      TopWords.selectTopWords words maxCount = words)
  /\ (forall first rest,
        words = first :: rest ->
        (maxCount < List.length words)%nat ->
        Forall (fun w => inject_Z (wf_frequency first) * 0.1
                         <= inject_Z (wf_frequency w)) words ->
        TopWords.selectTopWords words maxCount
        = firstn (Z.to_nat (Qfloor (ofNat maxCount * 0.7))) words).
Proof.
  unfold TopWords.selectTopWords.
  split; [|split; [|split]].
  - destruct (List.length words <=? maxCount)%nat eqn:E.
    + apply Nat.leb_le, E.
    + destruct words as [|first rest]; [simpl; lia|]. apply firstn_le_length.
  - destruct (List.length words <=? maxCount)%nat; [apply incl_refl|].
    destruct words as [|first rest]; [apply incl_refl|].
    set (ws := first :: rest).
    intros w Hw. apply In_firstn in Hw. revert w Hw. apply Forall_forall.
    assert (Hsel : forall n f, Forall (fun w => In w ws) (firstn n (filter f ws))).
    { intros n f. apply Forall_forall. intros w Hw.
      apply In_firstn, filter_In in Hw. apply Hw. }
    assert (Hrem : forall f, Forall (fun w => In w ws) (filter f ws)).
    { intro f. apply Forall_forall. intros w Hw. apply filter_In in Hw. apply Hw. }
    match goal with
    | |- Forall _ (if ?c then _ else _) => destruct c
    end; [apply pickLoop_Forall; [apply Hrem | apply Hsel] | apply Hsel].
  - intro H. apply Nat.leb_le in H. rewrite H. reflexivity.
  - intros first rest -> Hlen Hall.
    assert (E : (List.length (first :: rest) <=? maxCount)%nat = false)
      by (apply Nat.leb_gt, Hlen).
    rewrite E.
    rewrite (@filter_all _ (fun w => inject_Z (wf_frequency first) * 0.1
                                     <=? inject_Z (wf_frequency w)) (first :: rest)).
    2:{ revert Hall. apply Forall_impl. intros w Hw. apply Qle_bool_iff, Hw. }
    rewrite (@filter_none _ (fun w => inject_Z (wf_frequency w)
                                      <? inject_Z (wf_frequency first) * 0.1)
                          (first :: rest)).
    2:{ revert Hall. apply Forall_impl. intros w Hw. apply Qltb_ge, Hw. }
    cbn [List.length Nat.ltb Nat.leb andb] in *.
    rewrite andb_false_r.
    assert (Hmin : Qmin (ofNat maxCount * 0.7) (ofNat (S (List.length rest)))
                   == ofNat maxCount * 0.7).
    { apply Q.min_l. pose proof (ofNat_nonneg maxCount).
      assert (ofNat maxCount <= ofNat (S (List.length rest))).
      { unfold ofNat. rewrite <- Zle_Qle. lia. }
      lra. }
    rewrite (Qfloor_comp _ _ Hmin).
    rewrite firstn_firstn. f_equal. pose proof (floor_share maxCount). lia.
Qed.

(* ================================================================== *)
(** ** The pipeline: a run that completes *)

Lemma Reference_random_range (n : nat) :
  0 <= Reference.random n /\ Reference.random n < 1.
Proof.
  unfold Reference.random.
  pose proof (ofNat_nonneg (n mod 8)) as H0.
  assert (H8 : ofNat (n mod 8) < 8).
  { unfold ofNat. change 8 with (inject_Z 8). rewrite <- Zlt_Qlt.
    pose proof (Nat.mod_upper_bound n 8). lia. }
  unfold Qdiv. change (/ 8) with (1 # 8). split; lra.
Qed.

Section Completes.
Context {rt : Runtime}.

Lemma prepareLoop_ext (sizeOf : Q -> Q) (colorOf : nat -> Z -> option jsstring)
      (angleOf angleOf' : nat -> nat -> Z -> result (option Q * nat)) :
  (forall calls index f, angleOf calls index f = angleOf' calls index f) ->
  forall items calls index,
    prepareLoop sizeOf colorOf angleOf calls index items
    = prepareLoop sizeOf colorOf angleOf' calls index items.
Proof.
  intro H. induction items as [|item rest IH]; intros calls index; simpl; [reflexivity|].
  rewrite H. destruct (angleOf' calls index (wf_frequency item)) as [[o c]| | |];
    cbn [bind fst snd]; try reflexivity.
  destruct o; [|reflexivity]. rewrite IH. reflexivity.
Qed.

Lemma prepareLoop_total (sizeOf : Q -> Q) (colorOf : nat -> Z -> option jsstring)
      (angleOf : nat -> nat -> Z -> result (option Q * nat)) :
  (forall calls index f, exists a calls', angleOf calls index f = Ok (Some a, calls')) ->
  forall items calls index,
  exists out, prepareLoop sizeOf colorOf angleOf calls index items = Ok out.
Proof.
  intro H. induction items as [|item rest IH]; intros calls index; simpl.
  - eexists. reflexivity.
  - destruct (H calls index (wf_frequency item)) as (a & calls' & E). rewrite E.
    cbn [bind fst snd]. destruct (IH calls' (S index)) as (out & Eo). rewrite Eo.
    cbn [bind]. eexists. reflexivity.
Qed.

End Completes.


(* ================================================================== *)
(** ** Glyph Box Preparer: more on the bounding box *)

Lemma Qabs_opp_eq (a : Q) : Qabs (- a) = Qabs a.
Proof.
  destruct a as [n d]. unfold Qabs, Qopp. cbn [Qnum Qden]. rewrite Z.abs_opp. reflexivity.
Qed.

Lemma Qeq_bool_opp (a : Q) : (- a =? 0) = (a =? 0).
Proof.
  destruct (a =? 0) eqn:E.
  - apply Qeq_bool_iff in E. apply Qeq_bool_iff. lra.
  - destruct (- a =? 0) eqn:E'; [|reflexivity].
    apply Qeq_bool_iff in E'. assert (H : a == 0) by lra.
    apply Qeq_bool_iff in H. congruence.
Qed.

(** X16.  The estimated box does not depend on the direction of the turn:
    an angle and its opposite give the same box.  Its sides are never
    negative for a font size that is not negative, and never negative at
    all once the word is turned. *)
Theorem estimateTextDimensions_mirror {rt : Runtime} (text : jsstring)
        (fontSize angle : Q) :
  estimateTextDimensions text fontSize (- angle)
  = estimateTextDimensions text fontSize angle
  /\ (0 <= fontSize ->
      0 <= Size.width (estimateTextDimensions text fontSize angle)
      /\ 0 <= Size.height (estimateTextDimensions text fontSize angle))
  /\ (~ angle == 0 ->
      0 <= Size.width (estimateTextDimensions text fontSize angle)
      /\ 0 <= Size.height (estimateTextDimensions text fontSize angle)).
Proof.
  assert (Hturned : forall a b c d : Q, 0 <= Qabs a + Qabs b /\ 0 <= Qabs c + Qabs d).
  { intros a b c d.
    pose proof (Qabs_nonneg a). pose proof (Qabs_nonneg b).
    pose proof (Qabs_nonneg c). pose proof (Qabs_nonneg d). split; lra. }
  unfold estimateTextDimensions. rewrite Qabs_opp_eq, Qeq_bool_opp.
  split; [reflexivity|]. split.
  - intro Hf. destruct (angle =? 0); cbn [Size.width Size.height].
    + split; [apply baseWidthOf_nonneg, Hf | lra].
    + apply Hturned.
  - intro Hne. destruct (angle =? 0) eqn:E.
    + apply Qeq_bool_iff in E. contradiction.
    + cbn [Size.width Size.height]. apply Hturned.
Qed.

(* ================================================================== *)
(** ** The multi-format generator: colours *)

Lemma MultiFormat_palette_length (theme : jsstring) :
  List.length (MultiFormat.getThemeColors theme) = 10%nat.
Proof.
  unfold MultiFormat.getThemeColors, MultiFormat.colorThemes, lookupTheme.
  repeat match goal with
         | |- context [str_eqb ?a ?b] => destruct (str_eqb a b)
         end; reflexivity.
Qed.


